(** * motion_primitives: the graph search core ([graph_search2.cpp])

    A shallow embedding of [GraphSearch2] (serial and parallel expansion,
    the A* driver, path recovery, the quantised state hash) and the
    properties of it that the specification states.

    Conventions of the embedding.
    - A C++ [double] is an exact rational ([Qc], canonical rationals with
      Leibniz equality); rounding error is outside the model.
    - [Eigen::VectorXd] is [list Qc]; an integer vector is [list Z].
    - [std::size_t] is a 64-bit word: a [Z] reduced modulo [2^64].
    - [std::unordered_map] is a [gmap] keyed by the quantised state,
      [std::unordered_set] a list of the stored vectors looked up through
      the same quantisation.
    - [std::priority_queue] is an interface ([PriorityQueue]) whose laws say
      what the standard guarantees: [top] is an element of least total cost
      and [pop] removes it; which of several equal elements is on top is
      left to the instance.
    - Undefined behaviour and uncaught exceptions are an explicit [Fault]
      outcome; loops that need not terminate take fuel and report
      [OutOfFuel] when it runs out. *)

From Stdlib Require Import QArith Qcanon Lqa.
From stdpp Require Import base numbers list gmap strings.

Open Scope Qc_scope.

(** ** Scalars *)

(** The rational [n/d]. *)
Definition qc (n : Z) (d : positive) : Qc := Q2Qc (n # d).

(** [static_cast<int>(double)]: truncation toward zero.  (A value outside
    the range of [int] is undefined in C++; the model keeps the integer.) *)
Definition cast_int (x : Qc) : Z :=
  Z.quot (Qnum (this x)) (Zpos (Qden (this x))).

(** The mathematical floor, for comparison with the specification. *)
Definition floor (x : Qc) : Z :=
  Z.div (Qnum (this x)) (Zpos (Qden (this x))).

(** ** States and their quantisation *)

(** [Eigen::VectorXd]. *)
Definition State := list Qc.

(** [(vd * 100).cast<int>()], line 29 of [graph_search2.cpp]. *)
Definition quantize (vd : State) : list Z :=
  map (λ x, cast_int (x * qc 100 1)) vd.

(** The quantisation as the specification words it in its hash contract. *)
Definition floor_quantize (vd : State) : list Z :=
  map (λ x, floor (x * qc 100 1)) vd.

(** ** The state hash *)

Module Hash.

Definition size_t_bits : Z := 64.

(** Reduction to a [std::size_t]. *)
Definition wrap (z : Z) : Z := z mod 2 ^ size_t_bits.

Section WithHashInt.

(** [std::hash<int>], which the C++ standard leaves to the implementation. *)
Variable hash_int : Z → Z.

(** The loop body, line 34:
    [seed ^= std::hash<int>()(elem) + 0x9e3779b9 + (seed << 6) + (seed >> 2)],
    every operation in [size_t] arithmetic. *)
Definition combine (seed elem : Z) : Z :=
  let a := wrap (wrap (hash_int elem) + 0x9e3779b9) in
  let b := wrap (a + wrap (Z.shiftl seed 6)) in
  let c := wrap (b + Z.shiftr seed 2) in
  Z.lxor seed c.

(** The [for] loop of lines 32-35, reading [*(v.data() + i)] for [i] from
    the current index while [n] iterations remain. *)
Fixpoint hash_loop (v : list Z) (i : nat) (n : nat) (seed : Z) : Z :=
  match n with
  | O => seed
  | S n' => hash_loop v (S i) n' (combine seed (nth i v 0%Z))
  end.

(** [VectorXdHash::operator()]. *)
Definition VectorXdHash (vd : State) : Z :=
  let v := quantize vd in
  hash_loop v 0 (length v) 0.

(** The hash contract in the specification's words: the mixing step, read in
    [size_t] arithmetic, folded from seed 0 ... *)
Definition spec_mix (seed x : Z) : Z :=
  Z.lxor seed
    (wrap (hash_int x + 0x9e3779b9 + Z.shiftl seed 6 + Z.shiftr seed 2)).

(** ... over the integer components of [floor (state * 100)]. *)
Definition spec_hash (vd : State) : Z :=
  fold_left spec_mix (floor_quantize vd) 0%Z.

End WithHashInt.

(** [std::hash<int>] of libstdc++ and libc++: the value converted to
    [size_t]. *)
Definition std_hash_int (x : Z) : Z := wrap x.

End Hash.

(** ** Motion primitives and their graph ([motion_primitive_graph.h]) *)

Record MotionPrimitive := {
  id_ : Z;
  cost_ : Qc;
  traj_time_ : Qc;
  spatial_dim_ : nat;
  start_state_ : State;
  end_state_ : State;
  (** one row per spatial dimension; the constant term is the last entry of
      a row *)
  poly_coeffs_ : list (list Qc);
}.

(** Adds [delta] to the leading components of [v]; the components after
    them are kept. *)
Definition add_head (delta : list Qc) (v : State) : State :=
  zip_with Qcplus (take (length delta) v) delta ++ drop (length delta) v.

(** Adds [d] to the constant term of one polynomial. *)
Definition add_constant (row : list Qc) (d : Qc) : list Qc :=
  match reverse row with
  | [] => []
  | c :: hi => reverse hi ++ [c + d]
  end.

(** Modelled from the spec: [MotionPrimitive::translate] is declared in
    [motion_primitive_graph.h] and defined in a file that is not part of the
    sources.  Section 4.1: [delta = new_start.head(spatial_dim) -
    start_state.head(spatial_dim)] is added to the first [spatial_dim]
    components of both end points and to the constant term of the spatial
    rows of [poly_coeffs]; higher derivatives are not touched. *)
Definition translate (mp : MotionPrimitive) (new_start : State)
  : MotionPrimitive :=
  let sd := spatial_dim_ mp in
  let delta := zip_with Qcminus (take sd new_start) (take sd (start_state_ mp)) in
  {| id_ := id_ mp;
     cost_ := cost_ mp;
     traj_time_ := traj_time_ mp;
     spatial_dim_ := sd;
     start_state_ := add_head delta (start_state_ mp);
     end_state_ := add_head delta (end_state_ mp);
     poly_coeffs_ :=
       zip_with add_constant (take (length delta) (poly_coeffs_ mp)) delta
       ++ drop (length delta) (poly_coeffs_ mp) |}.

Record MotionPrimitiveGraph := {
  (** [edges_(i, j)]: one inner list per row [i] *)
  edges_ : list (list Z);
  vertices_ : list State;
  mps_ : list MotionPrimitive;
  max_state_ : State;
  dispersion_ : Qc;
  rho_ : Qc;
  graph_spatial_dim_ : nat;
  control_space_dim_ : nat;
  state_dim_ : nat;
  num_tiles_ : nat;
  tiling_ : bool;
}.

(** [edges_.rows()]. *)
Definition edges_rows (g : MotionPrimitiveGraph) : nat := length (edges_ g).

(** [edges_(i, j)].  Reading outside the table is undefined in Eigen; the
    model reads "no edge" there. *)
Definition edge_at (g : MotionPrimitiveGraph) (i j : nat) : Z :=
  nth j (nth i (edges_ g) []) (-1)%Z.

(** Modelled from the spec: [NormIndex] is a member of the graph class that
    the sources do not contain.  Section 3: [state_index mod V_norm] with
    [V_norm = V / num_tiles] when [tiling] is set; section 4.1: the index
    itself otherwise. *)
Definition NormIndex (g : MotionPrimitiveGraph) (state_index : nat) : nat :=
  if tiling_ g then state_index mod (edges_rows g / num_tiles_ g)
  else state_index.

(** Modelled from the spec: [get_mp_between_indices] is not in the sources.
    Section 4.1: a copy of [mps[edges(to_row, from_col_norm)]], undefined on
    a negative entry; [None] stands for the undefined cases (a negative
    entry, a label past the end of the bank). *)
Definition get_mp_between_indices (g : MotionPrimitiveGraph)
    (to_row from_col_norm : nat) : option MotionPrimitive :=
  let e := edge_at g to_row from_col_norm in
  if (e <? 0)%Z then None else mps_ g !! Z.to_nat e.

(** ** Search records ([graph_search2.h]) *)

Record Node2 := {
  state_index : nat;
  state : State;
  motion_cost : Qc;
  heuristic_cost : Qc;
}.

(** Modelled from the spec: [Node2::total_cost] (section 3,
    [total_cost = motion_cost + heuristic_cost]). *)
Definition total_cost (n : Node2) : Qc := motion_cost n + heuristic_cost n.

(** A cost or [+infinity]. *)
Inductive ecost := Fin (c : Qc) | PInf.

(** [c < b] for a finite [c]. *)
Definition cost_lt (c : Qc) (b : ecost) : bool :=
  match b with
  | Fin b => bool_decide (c < b)
  | PInf => true
  end.

Record Info := {
  parent_node : Node2;
  best_cost : ecost;
}.

Definition default_node : Node2 :=
  {| state_index := 0; state := []; motion_cost := 0; heuristic_cost := 0 |}.

(** Modelled from the spec: the default-constructed [Info], declared in
    [graph_search2.h].  Section 4.3: an entry materialised on read has
    [best_cost = +infinity] (the comment at line 223 of [graph_search2.cpp]
    says the same). *)
Definition default_info : Info :=
  {| parent_node := default_node; best_cost := PInf |}.

(** [PathHistory]: [std::unordered_map] from a state to its [Info].
    Modelled from the spec: the key equality is the quantised one of
    section 3, consistent with [VectorXdHash]. *)
Abbreviation PathHistory := (gmap (list Z) Info).

(** [history[st]] of C++: the entry is created on first access. *)
Definition history_index (history : PathHistory) (st : State)
  : Info * PathHistory :=
  match history !! quantize st with
  | Some info => (info, history)
  | None => (default_info, <[quantize st := default_info]> history)
  end.

(** ** The visited set *)

(** [visited_states_.find(st) != visited_states_.end()]. *)
Definition contains (visited : list State) (st : State) : bool :=
  existsb (λ v, bool_decide (quantize v = quantize st)) visited.

(** [visited_states_.insert(st)]: no effect when an equal state is stored. *)
Definition insert_state (visited : list State) (st : State) : list State :=
  if contains visited st then visited else visited ++ [st].

(** ** [std::priority_queue<Node2, std::vector<Node2>, decltype(node_cmp)>] *)

Class PriorityQueue := {
  pq_t : Type;
  pq_new : pq_t;
  pq_push : Node2 → pq_t → pq_t;
  pq_top : pq_t → option Node2;
  pq_pop : pq_t → pq_t;
  (** the elements held, for specification only *)
  pq_elems : pq_t → list Node2;
}.

(** What the C++ standard promises of a priority queue ordered by
    [node_cmp] ([n1.total_cost() > n2.total_cost()], a min-heap). *)
Record PriorityQueueLaws (PQ : PriorityQueue) : Prop := {
  pq_elems_new : pq_elems pq_new = [];
  pq_elems_push n q : pq_elems (pq_push n q) ≡ₚ n :: pq_elems q;
  pq_top_None q : pq_top q = None ↔ pq_elems q = [];
  pq_top_min q n m :
    pq_top q = Some n → m ∈ pq_elems q → total_cost n <= total_cost m;
  pq_elems_pop q n :
    pq_top q = Some n → pq_elems q ≡ₚ n :: pq_elems (pq_pop q);
}.

(** A queue kept as the list of its elements in order of insertion; of
    several elements of least total cost the one pushed first is on top. *)
Module ListPQ.

Fixpoint top_from (best : Node2) (q : list Node2) : Node2 :=
  match q with
  | [] => best
  | n :: q' =>
      top_from (if bool_decide (total_cost n < total_cost best) then n else best) q'
  end.

Definition top (q : list Node2) : option Node2 :=
  match q with
  | [] => None
  | n :: q' => Some (top_from n q')
  end.

(** Removes the first element that is not costlier than [best]. *)
Fixpoint remove_top (best : Node2) (q : list Node2) : list Node2 :=
  match q with
  | [] => []
  | n :: q' =>
      if bool_decide (total_cost n <= total_cost best) then q'
      else n :: remove_top best q'
  end.

Definition pop (q : list Node2) : list Node2 :=
  match top q with
  | None => []
  | Some best => remove_top best q
  end.

Definition pq : PriorityQueue :=
  {| pq_t := list Node2;
     pq_new := [];
     pq_push := λ n q, q ++ [n];
     pq_top := top;
     pq_pop := pop;
     pq_elems := λ q, q |}.

End ListPQ.

(** ** Outcomes and the state a search runs in *)

Inductive Outcome :=
| Returned (path : list MotionPrimitive)
| Fault       (** undefined behaviour or an uncaught exception *)
| OutOfFuel.  (** the model ran out of fuel: no answer yet *)

(** The [mutable] members that the [const] method [Search] writes, the
    position in the host's event stream (every poll of [ros::ok()] and every
    reading of the timer consumes one event), and, for specification only,
    the nodes handed to [Expand]/[ExpandPar] so far, oldest first. *)
Record SearchState := {
  visited_states_ : list State;
  timings : gmap string Qc;
  now : nat;
  expanded : list Node2;
}.

(** [(p1.head(spatial_dim) - p2.head(spatial_dim)).squaredNorm()]. *)
Definition squaredNorm (v : list Qc) : Qc := foldr (λ x acc, x * x + acc) 0 v.

(** [state_pos_within], lines 18-21. *)
Definition state_pos_within (p1 p2 : State) (spatial_dim : nat) (d : Qc)
  : bool :=
  bool_decide
    (squaredNorm (zip_with Qcminus (take spatial_dim p1) (take spatial_dim p2))
     < d * d).

(** One event of the host passes. *)
Definition tick (s : SearchState) : SearchState :=
  {| visited_states_ := visited_states_ s; timings := timings s;
     now := S (now s); expanded := expanded s |}.

(** ** [GraphSearch2] *)

(** A schedule of one [tbb::parallel_for]: for every worker that took part,
    in the order in which [enumerable_thread_specific] lists the workers, the
    blocked ranges [(begin, end)] it ran, in the order it ran them. *)
Definition Schedule := list (list (nat * nat)).

(** The indices a schedule covers, in the order their results are combined. *)
Definition schedule_indices (sched : Schedule) : list nat :=
  flat_map (λ r, seq (fst r) (snd r - fst r)) (concat sched).

(** The schedules of a [parallel_for] over [[0, n)]: every index is run
    exactly once. *)
Definition valid_schedule (n : nat) (sched : Schedule) : Prop :=
  schedule_indices sched ≡ₚ seq 0 n.

Section GraphSearch2.

Context {PQ : PriorityQueue}.

(** The members fixed at construction and the host. *)
Variable graph_ : MotionPrimitiveGraph.
Variable heuristic : State → Qc.
Variable is_mp_collision_free : MotionPrimitive → bool.
(** [ros::ok()] at the given event. *)
Variable ros_ok : nat → bool.
(** The reading of the wall-clock timer at the given event. *)
Variable Elapsed : nat → Qc.
(** The schedule TBB picks for the [parallel_for] started at the given
    event. *)
Variable tbb_schedule : nat → Schedule.

Definition spatial_dim : nat := graph_spatial_dim_ graph_.

(** [timings[label] += Elapsed(timer)]. *)
Definition add_time (label : string) (s : SearchState) : SearchState :=
  {| visited_states_ := visited_states_ s;
     timings :=
       <[label := default 0 (timings s !! label) + Elapsed (now s)]> (timings s);
     now := S (now s);
     expanded := expanded s |}.

(** Lines 59-63. *)
Definition next_node_of (node : Node2) (i : nat) (mp : MotionPrimitive)
  : Node2 :=
  {| state_index := i;
     state := end_state_ mp;
     motion_cost := motion_cost node + cost_ mp;
     heuristic_cost := heuristic (end_state_ mp) |}.

(** The body of the loops of [Expand] (lines 47-64) and [ExpandPar] (lines
    83-103): the nodes it appends, or [None] on a fault. *)
Definition expand_step (visited : list State) (node : Node2)
    (state_index i : nat) : option (list Node2) :=
  if (edge_at graph_ i state_index <? 0)%Z then Some []
  else
    mp0 ← get_mp_between_indices graph_ i state_index;
    let mp := translate mp0 (state node) in
    if contains visited (end_state_ mp) then Some []
    else if negb (is_mp_collision_free mp) then Some []
    else Some [next_node_of node i mp].

(** [for (int i = b; i < b + n; ++i)] appending to [nodes]. *)
Fixpoint expand_range (visited : list State) (node : Node2)
    (state_index i n : nat) (nodes : list Node2) : option (list Node2) :=
  match n with
  | O => Some nodes
  | S n' =>
      new ← expand_step visited node state_index i;
      expand_range visited node state_index (S i) n' (nodes ++ new)
  end.

(** [GraphSearch2::Expand], lines 39-68. *)
Definition Expand (visited : list State) (node : Node2)
  : option (list Node2) :=
  let state_index := NormIndex graph_ (state_index node) in
  let num_states := edges_rows graph_ in
  expand_range visited node state_index 0 num_states [].

(** What one worker leaves in its [priv_nodes.local()]. *)
Fixpoint run_worker (visited : list State) (node : Node2) (state_index : nat)
    (ranges : list (nat * nat)) (local : list Node2) : option (list Node2) :=
  match ranges with
  | [] => Some local
  | r :: ranges' =>
      local' ← expand_range visited node state_index (fst r) (snd r - fst r) local;
      run_worker visited node state_index ranges' local'
  end.

(** [GraphSearch2::ExpandPar], lines 70-116, under a schedule. *)
Definition ExpandPar (sched : Schedule) (visited : list State) (node : Node2)
  : option (list Node2) :=
  let state_index := NormIndex graph_ (state_index node) in
  priv_nodes ← mapM (λ ranges, run_worker visited node state_index ranges []) sched;
  Some (concat priv_nodes).

(** [GraphSearch2::GetPrimitiveBetween], lines 118-124. *)
Definition GetPrimitiveBetween (start_node end_node : Node2)
  : option MotionPrimitive :=
  let start_index := NormIndex graph_ (state_index start_node) in
  mp ← get_mp_between_indices graph_ (state_index end_node) start_index;
  Some (translate mp (state start_node)).

(** The loop of [GraphSearch2::RecoverPath], lines 131-136, and the
    [std::reverse] after it.  [history.at] throws on a missing key. *)
Fixpoint recover_loop (fuel : nat) (history : PathHistory) (curr_node : Node2)
    (path_mps : list MotionPrimitive) (s : SearchState)
  : Outcome * SearchState :=
  match fuel with
  | O => (OutOfFuel, s)
  | S fuel' =>
      if negb (ros_ok (now s)) then (Returned (reverse path_mps), tick s)
      else
        let s := tick s in
        if bool_decide (motion_cost curr_node = 0)
        then (Returned (reverse path_mps), s)
        else
          match history !! quantize (state curr_node) with
          | None => (Fault, s)
          | Some info =>
              let prev_node := parent_node info in
              match GetPrimitiveBetween prev_node curr_node with
              | None => (Fault, s)
              | Some mp =>
                  recover_loop fuel' history prev_node (path_mps ++ [mp]) s
              end
          end
  end.

(** [GraphSearch2::RecoverPath], lines 126-140. *)
Definition RecoverPath (fuel : nat) (history : PathHistory) (end_node : Node2)
    (s : SearchState) : Outcome * SearchState :=
  recover_loop fuel history end_node [] s.

(** Lines 224-232: one successor is compared with the best cost on record
    and, when strictly cheaper, pushed and recorded. *)
Definition relax (curr_node : Node2)
    (acc : pq_t * PathHistory * SearchState) (next_node : Node2)
  : pq_t * PathHistory * SearchState :=
  let '(pq, history, s) := acc in
  let '(info, history) := history_index history (state next_node) in
  let best_cost := best_cost info in
  if cost_lt (motion_cost next_node) best_cost then
    let pq := pq_push next_node pq in
    let s := add_time "astar_push" s in
    let history :=
      <[quantize (state next_node) :=
          {| parent_node := curr_node;
             best_cost := Fin (motion_cost next_node) |}]> history in
    (pq, history, s)
  else (pq, history, s).

(** [visited_states_.insert(curr_node.state)] and the hand-over of
    [curr_node] to the expander. *)
Definition visit (curr_node : Node2) (s : SearchState) : SearchState :=
  {| visited_states_ := insert_state (visited_states_ s) (state curr_node);
     timings := timings s;
     now := now s;
     expanded := expanded s ++ [curr_node] |}.

(** Line 218: [parallel ? ExpandPar(curr_node) : Expand(curr_node)], on the
    visited set as it stands. *)
Definition expander (parallel : bool) (s : SearchState) (curr_node : Node2)
  : option (list Node2) :=
  if parallel
  then ExpandPar (tbb_schedule (now s)) (visited_states_ s) curr_node
  else Expand (visited_states_ s) curr_node.

(** The [while] loop of [Search], lines 184-234, and the [return {}] after
    it.  [rfuel] is the fuel of a path recovery. *)
Fixpoint search_loop (rfuel : nat) (end_state : State)
    (distance_threshold : Qc) (parallel : bool) (fuel : nat) (pq : pq_t)
    (history : PathHistory) (s : SearchState) : Outcome * SearchState :=
  match fuel with
  | O => (OutOfFuel, s)
  | S fuel' =>
      match pq_top pq with
      | None => (Returned [], s)
      | Some curr_node =>
          if negb (ros_ok (now s)) then (Returned [], tick s)
          else
            let s := tick s in
            if state_pos_within (state curr_node) end_state spatial_dim
                 distance_threshold
            then RecoverPath rfuel history curr_node s
            else
              let pq := pq_pop pq in
              let s := add_time "astar_pop" s in
              if contains (visited_states_ s) (state curr_node)
              then search_loop rfuel end_state distance_threshold parallel
                     fuel' pq history s
              else
                let s := visit curr_node s in
                match expander parallel s curr_node with
                | None => (Fault, s)
                | Some next_nodes =>
                    let s := add_time "astar_expand" s in
                    let '(pq, history, s) :=
                      fold_left (relax curr_node) next_nodes (pq, history, s) in
                    search_loop rfuel end_state distance_threshold parallel
                      fuel' pq history s
                end
      end
  end.

(** Lines 162-166. *)
Definition start_node_of (start_state : State) : Node2 :=
  {| state_index := 0;
     state := start_state;
     motion_cost := 0;
     heuristic_cost := heuristic start_state |}.

(** [GraphSearch2::Search], lines 142-237.  [fuel] bounds the iterations of
    the main loop and those of the path recovery. *)
Definition Search (fuel : nat) (start_state end_state : State)
    (distance_threshold : Qc) (parallel : bool) (s : SearchState)
  : Outcome * SearchState :=
  let s := {| visited_states_ := []; timings := ∅; now := now s;
              expanded := [] |} in
  if state_pos_within start_state end_state spatial_dim distance_threshold
  then (Returned [], s)
  else
    let start_node := start_node_of start_state in
    let pq := pq_push start_node pq_new in
    let history : PathHistory := ∅ in
    search_loop fuel end_state distance_threshold parallel fuel pq history s.

(** [GraphSearch2::GetVisitedStates], lines 239-241. *)
Definition GetVisitedStates (s : SearchState) : list State :=
  visited_states_ s.

End GraphSearch2.

(** * Specification vocabulary *)

(** The quantised equivalence of section 3, with the quantisation of the
    code. *)
Definition quantized_eq (a b : State) : Prop := quantize a = quantize b.

(** Total cost of a list of primitives. *)
Definition path_cost (path : list MotionPrimitive) : Qc :=
  foldr (λ mp acc, cost_ mp + acc) 0 path.

Section Vocabulary.

Variable graph_ : MotionPrimitiveGraph.
Variable heuristic : State → Qc.
Variable is_mp_collision_free : MotionPrimitive → bool.

(** [edge p i mp]: from node [p] the expander reaches row [i] by the
    collision-free primitive [mp] (the visited set apart). *)
Definition edge (p : Node2) (i : nat) (mp : MotionPrimitive) : Prop :=
  (i < edges_rows graph_)%nat ∧
  ∃ mp0,
    get_mp_between_indices graph_ i (NormIndex graph_ (state_index p)) = Some mp0
    ∧ mp = translate mp0 (state p)
    ∧ is_mp_collision_free mp = true.

(** The nodes that sequences of collision-free primitives lead to from the
    start node, with the cost accumulated on the way. *)
Inductive reachable (start_node : Node2) : Node2 → Prop :=
| reachable_start : reachable start_node start_node
| reachable_step p i mp :
    reachable start_node p → edge p i mp →
    reachable start_node (next_node_of heuristic p i mp).

(** Two nodes at the same vertex and state (their costs may differ). *)
Definition same_vertex (a b : Node2) : Prop :=
  state_index a = state_index b ∧ state a = state b.

(** [mp_chain a path b]: [path] is a sequence of expander edges leading from
    the vertex of [a] to the vertex of [b]. *)
Inductive mp_chain : Node2 → list MotionPrimitive → Node2 → Prop :=
| mp_chain_nil a b : same_vertex a b → mp_chain a [] b
| mp_chain_snoc a path p i mp b :
    mp_chain a path p → edge p i mp →
    state_index b = i → state b = end_state_ mp →
    mp_chain a (path ++ [mp]) b.

(** The goal test of [Search]. *)
Definition is_goal (end_state : State) (distance_threshold : Qc) (n : Node2)
  : bool :=
  state_pos_within (state n) end_state (graph_spatial_dim_ graph_)
    distance_threshold.

(** The quantisation does not merge two distinct reachable vertices. *)
Definition quantize_separates (start_node : Node2) : Prop :=
  ∀ n m, reachable start_node n → reachable start_node m →
    quantized_eq (state n) (state m) → same_vertex n m.

(** The heuristic never overestimates the cost of one collision-free
    primitive: [h(p) <= cost(mp) + h(end of mp)]. *)
Definition consistent (start_node : Node2) : Prop :=
  ∀ p i mp, reachable start_node p → edge p i mp →
    heuristic (state p) <= cost_ mp + heuristic (end_state_ mp).

(** The heuristic is a non-negative lower bound at the goal: zero on every
    reachable node that passes the goal test. *)
Definition admissible_at_goal (start_node : Node2) (end_state : State)
    (distance_threshold : Qc) : Prop :=
  (∀ st, 0 <= heuristic st) ∧
  ∀ n, reachable start_node n → is_goal end_state distance_threshold n = true →
    heuristic (state n) = 0.

(** The heuristic is admissible: a non-negative lower bound on the cost that
    remains from a reachable node to any node that passes the goal test. *)
Definition admissible (start_node : Node2) (end_state : State)
    (distance_threshold : Qc) : Prop :=
  (∀ st, 0 <= heuristic st) ∧
  ∀ n m, reachable start_node n → reachable n m →
    is_goal end_state distance_threshold m = true →
    heuristic (state n) <= motion_cost m - motion_cost n.

(** Costs of the bank, section 3. *)
Definition costs_nonneg : Prop := ∀ mp, mp ∈ mps_ graph_ → 0 <= cost_ mp.
Definition costs_positive : Prop := ∀ mp, mp ∈ mps_ graph_ → 0 < cost_ mp.

(** Dimensions, section 3: every primitive of the bank has the spatial
    dimension of the graph and end points of the state dimension. *)
Definition dims_ok : Prop :=
  (graph_spatial_dim_ graph_ <= state_dim_ graph_)%nat ∧
  ∀ mp, mp ∈ mps_ graph_ →
    spatial_dim_ mp = graph_spatial_dim_ graph_
    ∧ length (start_state_ mp) = state_dim_ graph_
    ∧ length (end_state_ mp) = state_dim_ graph_.

(** The bank is a lattice: a primitive that leaves the column of row [i]
    starts with the higher derivatives with which the primitives entering
    row [i] end. *)
Definition lattice_ok : Prop :=
  ∀ i j k mp1 mp2,
    get_mp_between_indices graph_ i j = Some mp1 →
    get_mp_between_indices graph_ k (NormIndex graph_ i) = Some mp2 →
    drop (graph_spatial_dim_ graph_) (start_state_ mp2)
    = drop (graph_spatial_dim_ graph_) (end_state_ mp1).

(** The start state carries the higher derivatives of the primitives that
    leave column [NormIndex 0]. *)
Definition start_on_lattice (start_state : State) : Prop :=
  ∀ k mp,
    get_mp_between_indices graph_ k (NormIndex graph_ 0) = Some mp →
    drop (graph_spatial_dim_ graph_) (start_state_ mp)
    = drop (graph_spatial_dim_ graph_) start_state.

End Vocabulary.

(** ** The timing counters *)

Definition timing_labels : list string :=
  ["astar_pop"; "astar_push"; "astar_expand"].

(** From [s] to [s'] entries were only added, and only under the three
    labels. *)
Definition timings_grow (s s' : SearchState) : Prop :=
  (∀ l, is_Some (timings s !! l) → is_Some (timings s' !! l))
  ∧ (∀ l, is_Some (timings s' !! l) → is_Some (timings s !! l) ∨ l ∈ timing_labels).

(** ** Termination *)

(** An outcome other than running out of fuel. *)
Definition answered (out : Outcome) : Prop :=
  match out with
  | OutOfFuel => False
  | _ => True
  end.

(** Every history entry holds a finite cost, and its parent was expanded
    before any node at the entry's own state. *)
Record recovery_inv (history : PathHistory) (s : SearchState) : Prop := {
  rec_finite :
    ∀ k info, history !! k = Some info → ∃ c, best_cost info = Fin c;
  rec_earlier :
    ∀ k info, history !! k = Some info →
      ∃ i, expanded s !! i = Some (parent_node info)
           ∧ ∀ j e, expanded s !! j = Some e → quantize (state e) = k →
                    (i < j)%nat;
}.

(** An outcome other than a fault ([history.at] throwing, a primitive
    fetched where the table has none). *)
Definition safe (out : Outcome) : Prop :=
  match out with
  | Fault => False
  | _ => True
  end.

(** Every label of the edge table names a primitive of the bank. *)
Definition bank_indexed (g : MotionPrimitiveGraph) : Prop :=
  Forall (Forall (λ e, (e < Z.of_nat (length (mps_ g)))%Z)) (edges_ g).

(** Fuel that suffices for a graph with [rows] rows whose reachable nodes
    are among [known] many. *)
Definition enough_fuel (rows known : nat) : nat := S rows * S known + 2.

(** ** Invariants of the main loop *)

Section Invariants.

Context {PQ : PriorityQueue}.
Variable graph_ : MotionPrimitiveGraph.
Variable heuristic : State → Qc.
Variable is_mp_collision_free : MotionPrimitive → bool.
Variable start_node : Node2.
Variable end_state : State.
Variable distance_threshold : Qc.

(** The history holds a finite cost, no larger than its own, for [n]. *)
Definition recorded (history : PathHistory) (n : Node2) : Prop :=
  ∃ info c,
    history !! quantize (state n) = Some info
    ∧ best_cost info = Fin c ∧ c <= motion_cost n.

(** Every expansion so far is in the visited set, and no state was expanded
    twice. *)
Record visited_inv (s : SearchState) : Prop := {
  inv_visited : visited_states_ s = state <$> expanded s;
  inv_nodup : NoDup (quantize <$> visited_states_ s);
}.

(** [e] is the cheapest reachable node at its quantised state. *)
Definition cheapest (e : Node2) : Prop :=
  ∀ m, reachable graph_ heuristic is_mp_collision_free start_node m →
       quantize (state m) = quantize (state e) →
       motion_cost e <= motion_cost m.

(** What the queue, the history and the expansion log hold. *)
Record search_inv (pq : pq_t) (history : PathHistory) (s : SearchState)
  : Prop := {
  inv_vis : visited_inv s;
  inv_pq_reachable :
    ∀ q, q ∈ pq_elems pq → reachable graph_ heuristic is_mp_collision_free start_node q;
  inv_expanded_reachable :
    ∀ e, e ∈ expanded s → reachable graph_ heuristic is_mp_collision_free start_node e;
  inv_history :
    ∀ k info c, history !! k = Some info → best_cost info = Fin c →
      parent_node info ∈ expanded s
      ∧ ∃ i mp, edge graph_ is_mp_collision_free (parent_node info) i mp
                ∧ quantize (end_state_ mp) = k
                ∧ c = motion_cost (parent_node info) + cost_ mp;
  inv_pq_recorded :
    ∀ q, q ∈ pq_elems pq → q = start_node ∨ recorded history q;
  inv_expanded_recorded :
    ∀ e, e ∈ expanded s → e = start_node ∨ recorded history e;
  inv_expanded_not_goal :
    ∀ e, e ∈ expanded s → is_goal graph_ end_state distance_threshold e = false;
}.

(** The A* invariant; [todo] are the successors of the node under expansion
    that still wait for lines 224-232. *)
Record optimal_inv (todo : list Node2) (pq : pq_t) (history : PathHistory)
    (s : SearchState) : Prop := {
  opt_expanded :
    ∀ e m, e ∈ expanded s →
      reachable graph_ heuristic is_mp_collision_free start_node m →
      quantize (state m) = quantize (state e) →
      motion_cost e <= motion_cost m;
  opt_frontier :
    ∀ e i mp, e ∈ expanded s → edge graph_ is_mp_collision_free e i mp →
      contains (visited_states_ s) (end_state_ mp) = true
      ∨ (∃ q, q ∈ pq_elems pq
              ∧ quantize (state q) = quantize (end_state_ mp)
              ∧ motion_cost q <= motion_cost e + cost_ mp)
      ∨ next_node_of heuristic e i mp ∈ todo;
  opt_history :
    ∀ st info c, history !! quantize st = Some info → best_cost info = Fin c →
      contains (visited_states_ s) st = false →
      ∃ q, q ∈ pq_elems pq ∧ quantize (state q) = quantize st
           ∧ motion_cost q = c;
  opt_start :
    contains (visited_states_ s) (state start_node) = false →
    start_node ∈ pq_elems pq;
}.

(** What [Search] returns: a chain of expander edges between reachable
    nodes; when it is not empty it ends at a node that passes the goal test
    and starts at a node of motion cost zero, unless the host asked for
    shutdown. *)
Definition recovered (ros_ok : nat → bool) (path : list MotionPrimitive)
  : Prop :=
  ∃ x u,
    reachable graph_ heuristic is_mp_collision_free start_node x
    ∧ reachable graph_ heuristic is_mp_collision_free start_node u
    ∧ mp_chain graph_ is_mp_collision_free x path u
    ∧ (path ≠ [] →
       is_goal graph_ end_state distance_threshold u = true
       ∧ (motion_cost x = 0 ∨ ∃ t, ros_ok t = false)).

(** The cost of [path] is least among the reachable nodes that pass the goal
    test; and, when the host never asks for shutdown, it is the cost of such
    a node, unless none is reachable (and [path] is empty). *)
Definition least_cost (ros_ok : nat → bool) (path : list MotionPrimitive)
  : Prop :=
  (∀ m, reachable graph_ heuristic is_mp_collision_free start_node m →
        is_goal graph_ end_state distance_threshold m = true →
        path_cost path <= motion_cost m)
  ∧ ((∀ t, ros_ok t = true) →
     (∃ u, reachable graph_ heuristic is_mp_collision_free start_node u
           ∧ is_goal graph_ end_state distance_threshold u = true
           ∧ path_cost path = motion_cost u)
     ∨ (path = []
        ∧ ∀ m, reachable graph_ heuristic is_mp_collision_free start_node m →
               is_goal graph_ end_state distance_threshold m = false)).

End Invariants.

(** ** Checks over a finite set of nodes *)

(** Equality of nodes is decidable. *)
#[global] Instance Node2_eq_dec : EqDecision Node2.
Proof. solve_decision. Defined.

Section Checks.

Variable graph_ : MotionPrimitiveGraph.
Variable heuristic : State → Qc.
Variable is_mp_collision_free : MotionPrimitive → bool.

(** Every successor of a node of [L] is in [L]. *)
Definition closed_under_expand (L : list Node2) : bool :=
  forallb
    (λ p, match Expand graph_ heuristic is_mp_collision_free [] p with
          | Some ns => forallb (λ n, bool_decide (n ∈ L)) ns
          | None => false
          end) L.

(** The quantisation merges no two nodes of [L] at distinct vertices. *)
Definition separated (L : list Node2) : bool :=
  forallb
    (λ n, forallb
            (λ m, implb (bool_decide (quantize (state n) = quantize (state m)))
                    (bool_decide (state_index n = state_index m)
                     && bool_decide (state n = state m))) L) L.

(** The heuristic is consistent along every edge that leaves [L]. *)
Definition consistent_on (L : list Node2) : bool :=
  forallb
    (λ p, match Expand graph_ heuristic is_mp_collision_free [] p with
          | Some ns =>
              forallb
                (λ n, bool_decide (heuristic (state p) + motion_cost p
                                   <= motion_cost n + heuristic (state n))) ns
          | None => false
          end) L.

(** The heuristic is zero on the nodes of [L] that pass the goal test. *)
Definition zero_at_goal (end_state : State) (distance_threshold : Qc)
    (L : list Node2) : bool :=
  forallb
    (λ n, implb (is_goal graph_ end_state distance_threshold n)
                (bool_decide (heuristic (state n) = 0))) L.

(** Every primitive of the bank has the given higher derivatives at both
    ends. *)
Definition uniform_derivatives (v : list Qc) : bool :=
  forallb
    (λ mp, bool_decide (drop (graph_spatial_dim_ graph_) (start_state_ mp) = v)
           && bool_decide (drop (graph_spatial_dim_ graph_) (end_state_ mp) = v))
    (mps_ graph_).

End Checks.

(** * Scenarios *)

Module Scenarios.

(** An integer as a [double]. *)
Definition zq (z : Z) : Qc := qc z 1.

(** A planar primitive with zero higher derivatives at both ends, a straight
    line run in unit time. *)
Definition line (cost : Qc) (sx sy ex ey : Qc) : MotionPrimitive :=
  {| id_ := 0;
     cost_ := cost;
     traj_time_ := 1;
     spatial_dim_ := 2;
     start_state_ := [sx; sy; 0; 0];
     end_state_ := [ex; ey; 0; 0];
     poly_coeffs_ := [[ex - sx; sx]; [ey - sy; sy]] |}.

(** A planar graph without tiling. *)
Definition planar (edges : list (list Z)) (mps : list MotionPrimitive)
  : MotionPrimitiveGraph :=
  {| edges_ := edges;
     vertices_ := [];
     mps_ := mps;
     max_state_ := [];
     dispersion_ := 0;
     rho_ := 0;
     graph_spatial_dim_ := 2;
     control_space_dim_ := 2;
     state_dim_ := 4;
     num_tiles_ := 1;
     tiling_ := false |}.

(** A fresh [GraphSearch2] object. *)
Definition fresh : SearchState :=
  {| visited_states_ := []; timings := ∅; now := 0; expanded := [] |}.

(** A host that never asks for shutdown, and a timer that always reads one
    millisecond. *)
Definition always_ok (t : nat) : bool := true.
Definition one_ms (t : nat) : Qc := qc 1 1000.

(** One worker runs the whole range. *)
Definition one_worker (n : nat) (t : nat) : Schedule := [[(0, n)%nat]].

(** Two workers; the one that ran the upper half is listed first. *)
Definition upper_first (n : nat) (t : nat) : Schedule :=
  [[(n / 2, n)%nat]; [(0, n / 2)%nat]].

(** A run on the list queue. *)
Definition run (g : MotionPrimitiveGraph) (h : State → Qc)
    (free : MotionPrimitive → bool) (ok : nat → bool) (sched : nat → Schedule)
    (fuel : nat) (start_state end_state : State) (d : Qc) (parallel : bool)
  : Outcome * SearchState :=
  @Search ListPQ.pq g h free ok one_ms sched fuel start_state end_state d
    parallel fresh.

(** The path of an outcome (empty when there is none). *)
Definition path_of (r : Outcome * SearchState) : list MotionPrimitive :=
  match fst r with
  | Returned path => path
  | _ => []
  end.

(** Scenario S2/S3 of the specification: two vertices and one edge of cost 1
    from [(0,0)] to [(1,0)]. *)
Module OneStep.
Definition mp01 : MotionPrimitive := line 1 0 0 1 0.
Definition graph : MotionPrimitiveGraph :=
  planar [[-1; -1]; [0; -1]]%Z [mp01].
Definition origin : State := [0; 0; 0; 0].
Definition target : State := [1; 0; 0; 0].
(** The origin, moving at unit speed along x. *)
Definition moving : State := [0; 0; 1; 0].
Definition h (st : State) : Qc := 0.
Definition free (mp : MotionPrimitive) : bool := true.
Definition blocked (mp : MotionPrimitive) : bool := false.
End OneStep.

(** Scenario S4 of the specification: two routes of two edges each, of
    costs [1 + 1] and [3/2 + 3/2], over the vertices start (0), A (1), B (2)
    and goal (3). *)
Module TwoRoutes.
Definition mps : list MotionPrimitive :=
  [ line 1 0 0 1 1;                 (* start -> A *)
    line (qc 3 2) 0 0 1 (zq (-1));  (* start -> B *)
    line 1 1 1 (zq 2) 0;            (* A -> goal *)
    line (qc 3 2) 1 (zq (-1)) (zq 2) 0 ] (* B -> goal *).
Definition graph : MotionPrimitiveGraph :=
  planar [[-1; -1; -1; -1]; [0; -1; -1; -1]; [1; -1; -1; -1]; [-1; 2; 3; -1]]%Z
    mps.
Definition origin : State := [0; 0; 0; 0].
Definition target : State := [zq 2; 0; 0; 0].
Definition threshold : Qc := qc 1 100.
(** The distance still to cover along x, a consistent heuristic here. *)
Definition h (st : State) : Qc :=
  match st with
  | x :: _ => if bool_decide (x < zq 2) then zq 2 - x else 0
  | [] => 0
  end.
Definition free (mp : MotionPrimitive) : bool := true.
(** An obstacle at A. *)
Definition free_but_A (mp : MotionPrimitive) : bool :=
  bool_decide (take 2 (end_state_ mp) ≠ [1; 1]).
Definition start : Node2 := start_node_of h origin.
Definition succ (p : Node2) (i : nat) (k : nat) : Node2 :=
  next_node_of h p i (translate (nth k mps (line 0 0 0 0 0)) (state p)).
(** The reachable nodes ... *)
Definition nodes : list Node2 :=
  [ start;
    succ start 1 0; succ start 2 1;
    succ (succ start 1 0) 3 2; succ (succ start 2 1) 3 3 ].
(** ... and those reachable around the obstacle. *)
Definition nodes_but_A : list Node2 :=
  [ start; succ start 2 1; succ (succ start 2 1) 3 3 ].
End TwoRoutes.

(** An admissible heuristic that is not consistent.  Vertices start (0),
    B (1), C (2), goal (3); edges start -> B (2), B -> C (2), start -> C (7),
    C -> goal (4).  The cheapest route, over B, costs 8; the heuristic is 6
    at B (exactly the cost that remains from there) and 0 elsewhere. *)
Module Inconsistent.
Definition mps : list MotionPrimitive :=
  [ line (zq 2) 0 0 1 1;            (* start -> B *)
    line (zq 7) 0 0 (zq 2) 0;       (* start -> C *)
    line (zq 2) 1 1 (zq 2) 0;       (* B -> C *)
    line (zq 4) (zq 2) 0 (zq 3) 0 ] (* C -> goal *).
Definition graph : MotionPrimitiveGraph :=
  planar [[-1; -1; -1; -1]; [0; -1; -1; -1]; [1; 2; -1; -1]; [-1; -1; 3; -1]]%Z
    mps.
Definition origin : State := [0; 0; 0; 0].
Definition target : State := [zq 3; 0; 0; 0].
Definition threshold : Qc := qc 1 100.
Definition h (st : State) : Qc :=
  if bool_decide (take 2 st = [1; 1]) then zq 6 else 0.
Definition free (mp : MotionPrimitive) : bool := true.
Definition start : Node2 := start_node_of h origin.
Definition succ (p : Node2) (i : nat) (k : nat) : Node2 :=
  next_node_of h p i (translate (nth k mps (line 0 0 0 0 0)) (state p)).
Definition nodeB : Node2 := succ start 1 0.
(** The nodes reachable from the start ... *)
Definition nodes : list Node2 :=
  [ start; nodeB; succ start 2 1; succ nodeB 2 2;
    succ (succ start 2 1) 3 3; succ (succ nodeB 2 2) 3 3 ].
(** ... and from B. *)
Definition nodes_from_B : list Node2 :=
  [ nodeB; succ nodeB 2 2; succ (succ nodeB 2 2) 3 3 ].
End Inconsistent.

(** Two successors of the start of equal total cost.  Vertices start (0),
    B (1), C (2), goal (3); edges start -> B (1), B -> C (1), start -> C (4),
    C -> goal (2); the heuristic is 3 at B and 0 elsewhere. *)
Module Tie.
Definition mps : list MotionPrimitive :=
  [ line 1 0 0 1 1;                 (* start -> B *)
    line (zq 4) 0 0 (zq 2) 0;       (* start -> C *)
    line 1 1 1 (zq 2) 0;            (* B -> C *)
    line (zq 2) (zq 2) 0 (zq 3) 0 ] (* C -> goal *).
Definition graph : MotionPrimitiveGraph :=
  planar [[-1; -1; -1; -1]; [0; -1; -1; -1]; [1; 2; -1; -1]; [-1; -1; 3; -1]]%Z
    mps.
Definition origin : State := [0; 0; 0; 0].
Definition target : State := [zq 3; 0; 0; 0].
Definition threshold : Qc := qc 1 100.
Definition h (st : State) : Qc :=
  if bool_decide (take 2 st = [1; 1]) then zq 3 else 0.
Definition free (mp : MotionPrimitive) : bool := true.
End Tie.

(** Two vertices whose states the quantisation merges.  Vertices start (0),
    X1 (1) at [(2,0)], X2 (2) at [(2.005,0)] and P (3) at [(1,1)]; edges
    start -> X1 (5), start -> P (1), P -> X2 (1), and a primitive from P to
    row 1 that ends in an obstacle at [(5,5)].  The goal is X1. *)
Module Merged.
Definition mps : list MotionPrimitive :=
  [ line (zq 5) 0 0 (zq 2) 0;           (* start -> X1 *)
    line 1 0 0 1 1;                     (* start -> P *)
    line 1 1 1 (qc 401 200) 0;          (* P -> X2 *)
    line 1 1 1 (zq 5) (zq 5) ]          (* P -> row 1, into the obstacle *).
Definition graph : MotionPrimitiveGraph :=
  planar [[-1; -1; -1; -1]; [0; -1; -1; 3]; [-1; -1; -1; 2]; [1; -1; -1; -1]]%Z
    mps.
Definition origin : State := [0; 0; 0; 0].
Definition target : State := [zq 2; 0; 0; 0].
Definition threshold : Qc := qc 1 1000.
(** 4 at the state of X2, from which no goal can be reached; 0 elsewhere. *)
Definition h (st : State) : Qc :=
  if bool_decide (take 2 st = [qc 401 200; 0]) then zq 4 else 0.
(** An obstacle at [(5,5)]. *)
Definition free (mp : MotionPrimitive) : bool :=
  bool_decide (take 2 (end_state_ mp) ≠ [zq 5; zq 5]).
End Merged.

End Scenarios.

(** * Proofs *)

(** ** Arithmetic *)

Lemma Qc_eq_Qeq (x y : Qc) : x = y → (this x == this y)%Q.
Proof. intros ->. reflexivity. Qed.

Ltac qc_lra :=
  repeat match goal with
  | H : @eq Qc _ _ |- _ => apply Qc_eq_Qeq in H
  | |- @eq Qc _ _ => apply Qc_is_canon
  end;
  unfold Qcle, Qclt, Qcminus, Qcopp, Qcplus, Qcmult in *;
  cbn [this Q2Qc] in *;
  rewrite ?Qred_correct in *;
  lra.

(** ** The state hash *)

Section HashFacts.
Import Hash.
Variable hash_int : Z → Z.

Lemma wrap_add_l a b : wrap (wrap a + b) = wrap (a + b).
Proof. unfold wrap. apply Zplus_mod_idemp_l. Qed.

Lemma wrap_add_r a b : wrap (a + wrap b) = wrap (a + b).
Proof. unfold wrap. apply Zplus_mod_idemp_r. Qed.

Lemma combine_spec_mix seed x : combine hash_int seed x = spec_mix hash_int seed x.
Proof.
  unfold combine, spec_mix. f_equal. cbn zeta.
  rewrite wrap_add_l.
  replace (wrap (wrap (hash_int x) + 0x9e3779b9) + wrap (seed ≪ 6) + seed ≫ 2)%Z
    with (wrap (wrap (hash_int x) + 0x9e3779b9) + (wrap (seed ≪ 6) + seed ≫ 2))%Z
    by lia.
  rewrite wrap_add_l, <- Z.add_assoc, wrap_add_l.
  replace (hash_int x + (0x9e3779b9 + (wrap (seed ≪ 6) + seed ≫ 2)))%Z
    with (hash_int x + 0x9e3779b9 + seed ≫ 2 + wrap (seed ≪ 6))%Z by lia.
  rewrite wrap_add_r. f_equal. lia.
Qed.

Lemma hash_loop_fold v : ∀ i seed,
  hash_loop hash_int v i (length v - i) seed
  = fold_left (spec_mix hash_int) (drop i v) seed.
Proof.
  intros i. remember (length v - i)%nat as n eqn:Hn.
  revert i Hn. induction n as [|n IH]; intros i Hn seed.
  - rewrite drop_ge by lia. done.
  - assert (Hi : (i < length v)%nat) by lia.
    destruct (lookup_lt_is_Some_2 v i Hi) as [x Hx].
    rewrite (drop_S _ _ _ Hx). cbn [hash_loop fold_left].
    rewrite (nth_lookup_Some _ _ _ _ Hx), combine_spec_mix.
    apply IH. lia.
Qed.

Lemma cast_int_floor x : 0 <= x → cast_int x = floor x.
Proof.
  intros Hx. unfold cast_int, floor. apply Z.quot_div_nonneg; [|done].
  unfold Qcle, Qle in Hx. simpl in Hx. lia.
Qed.

Lemma quantize_floor vd :
  Forall (λ x, 0 <= x) vd → quantize vd = floor_quantize vd.
Proof.
  induction 1 as [|x vd Hx _ IH]; [done|].
  unfold quantize, floor_quantize in *. cbn [map]. rewrite IH. f_equal.
  apply cast_int_floor.
  assert (H100 : 0 <= qc 100 1) by done.
  revert Hx H100. generalize (qc 100 1). intros c Hx Hc.
  unfold Qcle in *. cbn [this Qcmult Q2Qc] in *. rewrite !Qred_correct in *.
  by apply Qmult_le_0_compat.
Qed.

(** The hash respects the key equality: two states that the quantisation
    does not tell apart have the same hash, as unordered containers require
    of a hash and its key equality. *)
Theorem VectorXdHash_quantized_eq a b :
  quantized_eq a b → VectorXdHash hash_int a = VectorXdHash hash_int b.
Proof. unfold quantized_eq, VectorXdHash. cbn zeta. by intros ->. Qed.

End HashFacts.


(** 0.001 and 0.002 fall into the same cell and hash alike. *)
Lemma VectorXdHash_quantized_eq_witness :
  quantized_eq [qc 1 1000] [qc 2 1000]
  ∧ Hash.VectorXdHash Hash.std_hash_int [qc 1 1000]
    = Hash.VectorXdHash Hash.std_hash_int [qc 2 1000].
Proof.
  assert (Heq : quantized_eq [qc 1 1000] [qc 2 1000]) by (by vm_compute).
  split; [exact Heq|].
  exact (VectorXdHash_quantized_eq Hash.std_hash_int _ _ Heq).
Defined.


(** ** The list priority queue obeys the laws *)

Module ListPQFacts.
Import ListPQ.

Lemma top_from_cases best q :
  top_from best q = best
  ∨ (top_from best q ∈ q ∧ total_cost (top_from best q) < total_cost best).
Proof.
  revert best. induction q as [|n q IH]; intros best; [by left|].
  cbn [top_from]. case_bool_decide as Hlt.
  - right. destruct (IH n) as [->|[Hin Hlt']].
    + split; [left|done].
    + split; [by right|]. qc_lra.
  - destruct (IH best) as [->|[Hin Hlt']]; [by left|].
    right. split; [by right|done].
Qed.

Lemma top_from_min best q m :
  m ∈ best :: q → total_cost (top_from best q) <= total_cost m.
Proof.
  revert best m. induction q as [|n q IH]; intros best m Hm.
  - apply list_elem_of_singleton in Hm as ->. cbn. qc_lra.
  - cbn [top_from]. case_bool_decide as Hlt.
    + apply elem_of_cons in Hm as [->|Hm].
      * pose proof (IH n n ltac:(left)). qc_lra.
      * apply IH. done.
    + apply elem_of_cons in Hm as [->|Hm].
      * apply IH. left.
      * apply elem_of_cons in Hm as [->|Hm].
        -- pose proof (IH best best ltac:(left)). qc_lra.
        -- apply IH. by right.
Qed.

Lemma remove_top_perm q : ∀ best,
  total_cost (top_from best q) < total_cost best →
  q ≡ₚ top_from best q :: remove_top (top_from best q) q.
Proof.
  induction q as [|n q IH]; intros best Hlt.
  - cbn in Hlt. qc_lra.
  - cbn [top_from] in *. case_bool_decide as Hn.
    + destruct (top_from_cases n q) as [Heq|[_ Hlt']].
      * rewrite Heq. cbn [remove_top].
        rewrite bool_decide_eq_true_2; [done|qc_lra].
      * cbn [remove_top]. rewrite bool_decide_eq_false_2 by qc_lra.
        rewrite (IH n Hlt') at 1. apply Permutation_swap.
    + cbn [remove_top]. rewrite bool_decide_eq_false_2 by qc_lra.
      rewrite (IH best Hlt) at 1. apply Permutation_swap.
Qed.

Lemma pq_laws : PriorityQueueLaws pq.
Proof.
  split; cbn.
  - done.
  - intros n q. by rewrite Permutation_app_comm.
  - intros [|n q]; cbn; split; congruence.
  - intros [|b q] n m; cbn; [done|]. intros [= <-] Hm. by apply top_from_min.
  - intros [|b q] n; cbn; [done|]. intros [= <-].
    destruct (top_from_cases b q) as [Heq|[_ Hlt]].
    + rewrite Heq. rewrite bool_decide_eq_true_2; [done|qc_lra].
    + rewrite bool_decide_eq_false_2 by qc_lra.
      rewrite (remove_top_perm q b Hlt) at 1. apply Permutation_swap.
Qed.

End ListPQFacts.

(** ** Expansion: serial and parallel *)

Lemma mapM_app_Some {A B} (f : A → option B) l1 l2 :
  mapM f (l1 ++ l2) = k1 ← mapM f l1; k2 ← mapM f l2; Some (k1 ++ k2).
Proof.
  induction l1 as [|x l1 IH]; cbn.
  - by destruct (mapM f l2).
  - destruct (f x); cbn; [|done]. rewrite IH.
    destruct (mapM f l1); cbn; [|done]. by destruct (mapM f l2).
Qed.

Lemma mapM_perm {A B} (f : A → option B) l1 l2 k1 :
  l1 ≡ₚ l2 → mapM f l1 = Some k1 → ∃ k2, mapM f l2 = Some k2 ∧ k1 ≡ₚ k2.
Proof.
  intros Hp. revert k1. induction Hp as [|x l1 l2 _ IH|x y l|l1 l2 l3 _ IH1 _ IH2];
    intros k1 Hk.
  - exists k1. done.
  - cbn in *. destruct (f x) as [b|]; cbn in *; [|done].
    destruct (mapM f l1) as [k|]; cbn in *; [|done]. injection Hk as <-.
    destruct (IH k eq_refl) as (k2 & -> & Hk2). cbn. exists (b :: k2).
    split; [done|]. by constructor.
  - cbn in *. destruct (f y) as [b|]; cbn in *; [|done].
    destruct (f x) as [a|]; cbn in *; [|done].
    destruct (mapM f l) as [k|]; cbn in *; [|done]. injection Hk as <-.
    exists (a :: b :: k). split; [done|]. apply Permutation_swap.
  - destruct (IH1 k1 Hk) as (k2 & Hk2 & Hp2).
    destruct (IH2 k2 Hk2) as (k3 & Hk3 & Hp3).
    exists k3. split; [done|]. by etrans.
Qed.

Lemma mapM_perm_None {A B} (f : A → option B) l1 l2 :
  l1 ≡ₚ l2 → mapM f l1 = None → mapM f l2 = None.
Proof.
  intros Hp Hn. destruct (mapM f l2) as [k2|] eqn:H2; [|done].
  destruct (mapM_perm f l2 l1 k2 (symmetry Hp) H2) as (k1 & Hk1 & _).
  congruence.
Qed.

Lemma concat_perm {A} (k1 k2 : list (list A)) :
  k1 ≡ₚ k2 → concat k1 ≡ₚ concat k2.
Proof. intros Hp. by rewrite Hp. Qed.

Section ExpandFacts.

Variable graph_ : MotionPrimitiveGraph.
Variable heuristic : State → Qc.
Variable is_mp_collision_free : MotionPrimitive → bool.
Variable visited : list State.
Variable node : Node2.
Variable col : nat.

Let step := expand_step graph_ heuristic is_mp_collision_free visited node col.

Lemma expand_range_mapM i n nodes :
  expand_range graph_ heuristic is_mp_collision_free visited node col i n nodes
  = k ← mapM step (seq i n); Some (nodes ++ concat k).
Proof.
  revert i nodes. induction n as [|n IH]; intros i nodes; cbn.
  - by rewrite app_nil_r.
  - fold step. destruct (step i) as [new|]; cbn; [|done].
    rewrite IH. destruct (mapM step (seq (S i) n)); cbn; [|done].
    by rewrite app_assoc.
Qed.

Lemma run_worker_mapM ranges local :
  run_worker graph_ heuristic is_mp_collision_free visited node col ranges local
  = k ← mapM step (flat_map (λ r, seq (fst r) (snd r - fst r)) ranges);
    Some (local ++ concat k).
Proof.
  revert local. induction ranges as [|r ranges IH]; intros local; cbn.
  - by rewrite app_nil_r.
  - rewrite expand_range_mapM, mapM_app_Some.
    destruct (mapM step (seq _ _)) as [k1|]; cbn; [|done].
    rewrite IH. destruct (mapM step (flat_map _ ranges)) as [k2|]; cbn; [|done].
    by rewrite concat_app, app_assoc.
Qed.

Lemma workers_mapM (sched : Schedule) :
  (priv ← mapM (λ ranges, run_worker graph_ heuristic is_mp_collision_free
                             visited node col ranges []) sched;
   Some (concat priv))
  = k ← mapM step (schedule_indices sched); Some (concat k).
Proof.
  unfold schedule_indices. induction sched as [|ranges sched IH]; [done|].
  cbn [mapM concat]. rewrite flat_map_app, mapM_app_Some, run_worker_mapM.
  destruct (mapM step (flat_map _ ranges)) as [k1|]; cbn; [|done].
  cbn in IH. destruct (mapM _ sched) as [priv|]; cbn in *.
  - destruct (mapM step (flat_map _ (concat sched))) as [k2|]; cbn in *; [|done].
    injection IH as IH. by rewrite concat_app, IH.
  - by destruct (mapM step (flat_map _ (concat sched))).
Qed.

End ExpandFacts.

Section ExpandPar.

Variable graph_ : MotionPrimitiveGraph.
Variable heuristic : State → Qc.
Variable is_mp_collision_free : MotionPrimitive → bool.

Lemma Expand_mapM visited node :
  Expand graph_ heuristic is_mp_collision_free visited node
  = k ← mapM (expand_step graph_ heuristic is_mp_collision_free visited node
                (NormIndex graph_ (state_index node)))
        (seq 0 (edges_rows graph_));
    Some (concat k).
Proof. unfold Expand. cbn zeta. by rewrite expand_range_mapM. Qed.

Lemma ExpandPar_mapM sched visited node :
  ExpandPar graph_ heuristic is_mp_collision_free sched visited node
  = k ← mapM (expand_step graph_ heuristic is_mp_collision_free visited node
                (NormIndex graph_ (state_index node)))
        (schedule_indices sched);
    Some (concat k).
Proof. unfold ExpandPar. cbn zeta. apply workers_mapM. Qed.

(** Under every schedule the parallel expansion faults exactly when the
    serial one does and otherwise returns a permutation of its result. *)
Lemma ExpandPar_Expand sched visited node :
  valid_schedule (edges_rows graph_) sched →
  match Expand graph_ heuristic is_mp_collision_free visited node with
  | Some nodes =>
      ∃ nodes', ExpandPar graph_ heuristic is_mp_collision_free sched visited node
                = Some nodes' ∧ nodes' ≡ₚ nodes
  | None =>
      ExpandPar graph_ heuristic is_mp_collision_free sched visited node = None
  end.
Proof.
  intros Hv. rewrite Expand_mapM, ExpandPar_mapM.
  destruct (mapM _ (seq 0 _)) as [k|] eqn:Hk; cbn.
  - destruct (mapM_perm _ _ _ _ (symmetry Hv) Hk) as (k' & -> & Hp).
    cbn. eexists. split; [done|]. by apply concat_perm.
  - by rewrite (mapM_perm_None _ _ _ (symmetry Hv) Hk).
Qed.

End ExpandPar.

(** ** The search: elementary facts *)

Lemma fold_left_invariant {A B} (P : A → Prop) (f : A → B → A) l acc :
  P acc → (∀ acc x, x ∈ l → P acc → P (f acc x)) → P (fold_left f l acc).
Proof.
  revert acc. induction l as [|x l IH]; intros acc Hacc Hstep; [done|].
  cbn. apply IH.
  - apply Hstep; [left|done].
  - intros acc' y Hy. apply Hstep. by right.
Qed.

Lemma state_pos_within_neg p1 p2 sd d :
  state_pos_within p1 p2 sd (- d) = state_pos_within p1 p2 sd d.
Proof.
  unfold state_pos_within. by replace (- d * - d) with (d * d) by ring.
Qed.

Lemma contains_true visited st :
  contains visited st = true ↔ ∃ v, v ∈ visited ∧ quantize v = quantize st.
Proof.
  unfold contains. rewrite existsb_exists. split.
  - intros (v & Hv & Heq). exists v. split; [by apply list_elem_of_In|].
    by apply bool_decide_eq_true in Heq.
  - intros (v & Hv & Heq). exists v. split; [by apply list_elem_of_In|].
    by apply bool_decide_eq_true.
Qed.

Lemma contains_false visited st :
  contains visited st = false ↔ quantize st ∉ quantize <$> visited.
Proof.
  rewrite <- not_true_iff_false, contains_true, list_elem_of_fmap.
  split; intros Hn (v & ? & ?); apply Hn; exists v; done.
Qed.

(** ** Translation *)

Lemma zip_plus_minus (l1 l2 : list Qc) :
  length l1 = length l2 →
  zip_with Qcplus l1 (zip_with Qcminus l2 l1) = l2.
Proof.
  revert l2. induction l1 as [|a l1 IH]; intros [|b l2] Hlen; try done.
  cbn in *. f_equal; [ring|]. apply IH. lia.
Qed.

Lemma length_zip_minus_take sd (st v : State) :
  (sd <= length st)%nat → (sd <= length v)%nat →
  length (zip_with Qcminus (take sd st) (take sd v)) = sd.
Proof. intros. rewrite length_zip_with, !length_take. lia. Qed.

Lemma add_head_take sd (st v : State) :
  (sd <= length st)%nat → (sd <= length v)%nat →
  take sd (add_head (zip_with Qcminus (take sd st) (take sd v)) v) = take sd st.
Proof.
  intros Hst Hv. unfold add_head. rewrite length_zip_minus_take by done.
  rewrite take_app_le.
  2:{ rewrite length_zip_with, length_zip_minus_take, length_take by done. lia. }
  rewrite take_ge.
  2:{ rewrite length_zip_with, length_zip_minus_take, length_take by done. lia. }
  apply zip_plus_minus. rewrite !length_take. lia.
Qed.

Lemma add_head_drop sd (delta : list Qc) (v : State) :
  length delta = sd → (sd <= length v)%nat →
  drop sd (add_head delta v) = drop sd v.
Proof.
  intros Hd Hv. unfold add_head. rewrite Hd. rewrite drop_app_ge.
  2:{ rewrite length_zip_with, length_take. lia. }
  rewrite length_zip_with, length_take, Hd.
  replace (sd - _)%nat with 0%nat by lia. done.
Qed.

Lemma add_head_length (delta : list Qc) (v : State) :
  (length delta <= length v)%nat → length (add_head delta v) = length v.
Proof.
  intros Hd. unfold add_head.
  rewrite length_app, length_zip_with, length_take, length_drop. lia.
Qed.

Lemma get_mp_between_indices_elem g i j mp0 :
  get_mp_between_indices g i j = Some mp0 → mp0 ∈ mps_ g.
Proof.
  unfold get_mp_between_indices. destruct (_ <? 0)%Z; [done|].
  apply list_elem_of_lookup_2.
Qed.

Section SearchFacts.

Context {PQ : PriorityQueue}.
Variable graph_ : MotionPrimitiveGraph.
Variable heuristic : State → Qc.
Variable is_mp_collision_free : MotionPrimitive → bool.
Variable ros_ok : nat → bool.
Variable Elapsed : nat → Qc.
Variable tbb_schedule : nat → Schedule.

Local Abbreviation loop :=
  (search_loop graph_ heuristic is_mp_collision_free ros_ok Elapsed tbb_schedule).
Local Abbreviation recover := (recover_loop graph_ ros_ok).
Local Abbreviation search :=
  (Search graph_ heuristic is_mp_collision_free ros_ok Elapsed tbb_schedule).
Local Abbreviation sd := (spatial_dim graph_).

(** *** A proof rule for the main loop *)

Section FuelRule.

Variable rfuel : nat.
Variable end_state : State.
Variable d : Qc.
Variable parallel : bool.
(** The invariant may mention the fuel that is left. *)
Variable Inv : nat → pq_t → PathHistory → SearchState → Prop.
Variable Post : Outcome → SearchState → Prop.

Local Abbreviation expand :=
  (expander graph_ heuristic is_mp_collision_free tbb_schedule parallel).

Hypothesis out_of_fuel : ∀ pq history s, Inv 0 pq history s → Post OutOfFuel s.
Hypothesis drained :
  ∀ fuel pq history s,
    Inv (S fuel) pq history s → pq_top pq = None → Post (Returned []) s.
Hypothesis cancelled :
  ∀ fuel pq history s curr_node,
    Inv (S fuel) pq history s → pq_top pq = Some curr_node →
    ros_ok (now s) = false →
    Post (Returned []) (tick s).
Hypothesis at_goal :
  ∀ fuel pq history s curr_node,
    Inv (S fuel) pq history s → pq_top pq = Some curr_node →
    ros_ok (now s) = true →
    state_pos_within (state curr_node) end_state sd d = true →
    Post (fst (RecoverPath graph_ ros_ok rfuel history curr_node (tick s)))
         (snd (RecoverPath graph_ ros_ok rfuel history curr_node (tick s))).
Hypothesis stale :
  ∀ fuel pq history s curr_node,
    Inv (S fuel) pq history s → pq_top pq = Some curr_node →
    ros_ok (now s) = true →
    state_pos_within (state curr_node) end_state sd d = false →
    contains (visited_states_ s) (state curr_node) = true →
    Inv fuel (pq_pop pq) history (add_time Elapsed "astar_pop" (tick s)).
Hypothesis faulted :
  ∀ fuel pq history s curr_node,
    Inv (S fuel) pq history s → pq_top pq = Some curr_node →
    ros_ok (now s) = true →
    state_pos_within (state curr_node) end_state sd d = false →
    contains (visited_states_ s) (state curr_node) = false →
    let s1 := visit curr_node (add_time Elapsed "astar_pop" (tick s)) in
    expand s1 curr_node = None →
    Post Fault s1.
Hypothesis fresh :
  ∀ fuel pq history s curr_node next_nodes,
    Inv (S fuel) pq history s → pq_top pq = Some curr_node →
    ros_ok (now s) = true →
    state_pos_within (state curr_node) end_state sd d = false →
    contains (visited_states_ s) (state curr_node) = false →
    let s1 := visit curr_node (add_time Elapsed "astar_pop" (tick s)) in
    expand s1 curr_node = Some next_nodes →
    ∀ pq' history' s',
      fold_left (relax Elapsed curr_node) next_nodes
        (pq_pop pq, history, add_time Elapsed "astar_expand" s1)
      = (pq', history', s') →
      Inv fuel pq' history' s'.

Lemma search_loop_rule_fuel fuel :
  ∀ pq history s,
    Inv fuel pq history s →
    Post (fst (loop rfuel end_state d parallel fuel pq history s))
         (snd (loop rfuel end_state d parallel fuel pq history s)).
Proof.
  induction fuel as [|fuel IH]; intros pq history s HI.
  { by eapply out_of_fuel. }
  cbn [search_loop].
  destruct (pq_top pq) as [curr_node|] eqn:Htop; [|by eapply drained].
  destruct (ros_ok (now s)) eqn:Hok; cbn [negb]; [|by eapply cancelled].
  destruct (state_pos_within _ _ _ _) eqn:Hgoal; [by eapply at_goal|].
  change (visited_states_ (add_time Elapsed "astar_pop" (tick s)))
    with (visited_states_ s).
  destruct (contains _ _) eqn:Hvis; [by eapply IH, stale|].
  destruct (expander _ _ _ _ _ _ _) as [next_nodes|] eqn:Hexp;
    [|by eapply faulted].
  destruct (fold_left _ _ _) as [[pq' history'] s'] eqn:Hfold.
  eapply IH, fresh; done.
Qed.

End FuelRule.

Section LoopRule.

Variable rfuel : nat.
Variable end_state : State.
Variable d : Qc.
Variable parallel : bool.
Variable Inv : pq_t → PathHistory → SearchState → Prop.
Variable Post : Outcome → SearchState → Prop.

Local Abbreviation expand :=
  (expander graph_ heuristic is_mp_collision_free tbb_schedule parallel).

Hypothesis out_of_fuel : ∀ pq history s, Inv pq history s → Post OutOfFuel s.
Hypothesis drained :
  ∀ pq history s, Inv pq history s → pq_top pq = None → Post (Returned []) s.
Hypothesis cancelled :
  ∀ pq history s curr_node,
    Inv pq history s → pq_top pq = Some curr_node → ros_ok (now s) = false →
    Post (Returned []) (tick s).
Hypothesis at_goal :
  ∀ pq history s curr_node,
    Inv pq history s → pq_top pq = Some curr_node → ros_ok (now s) = true →
    state_pos_within (state curr_node) end_state sd d = true →
    Post (fst (RecoverPath graph_ ros_ok rfuel history curr_node (tick s)))
         (snd (RecoverPath graph_ ros_ok rfuel history curr_node (tick s))).
Hypothesis stale :
  ∀ pq history s curr_node,
    Inv pq history s → pq_top pq = Some curr_node → ros_ok (now s) = true →
    state_pos_within (state curr_node) end_state sd d = false →
    contains (visited_states_ s) (state curr_node) = true →
    Inv (pq_pop pq) history (add_time Elapsed "astar_pop" (tick s)).
Hypothesis faulted :
  ∀ pq history s curr_node,
    Inv pq history s → pq_top pq = Some curr_node → ros_ok (now s) = true →
    state_pos_within (state curr_node) end_state sd d = false →
    contains (visited_states_ s) (state curr_node) = false →
    let s1 := visit curr_node (add_time Elapsed "astar_pop" (tick s)) in
    expand s1 curr_node = None →
    Post Fault s1.
Hypothesis fresh :
  ∀ pq history s curr_node next_nodes,
    Inv pq history s → pq_top pq = Some curr_node → ros_ok (now s) = true →
    state_pos_within (state curr_node) end_state sd d = false →
    contains (visited_states_ s) (state curr_node) = false →
    let s1 := visit curr_node (add_time Elapsed "astar_pop" (tick s)) in
    expand s1 curr_node = Some next_nodes →
    ∀ pq' history' s',
      fold_left (relax Elapsed curr_node) next_nodes
        (pq_pop pq, history, add_time Elapsed "astar_expand" s1)
      = (pq', history', s') →
      Inv pq' history' s'.

Lemma search_loop_rule fuel :
  ∀ pq history s,
    Inv pq history s →
    Post (fst (loop rfuel end_state d parallel fuel pq history s))
         (snd (loop rfuel end_state d parallel fuel pq history s)).
Proof.
  apply (search_loop_rule_fuel rfuel end_state d parallel (λ _, Inv) Post);
    eauto.
Qed.

End LoopRule.

(** *** What the steps leave untouched *)

Lemma recover_loop_fields fuel history : ∀ curr_node path_mps s,
  let r := recover fuel history curr_node path_mps s in
  visited_states_ (snd r) = visited_states_ s
  ∧ expanded (snd r) = expanded s
  ∧ timings (snd r) = timings s.
Proof.
  induction fuel as [|fuel IH]; intros curr_node path_mps s; [done|].
  cbn [recover_loop]. destruct (negb _); [done|].
  destruct (bool_decide _); [done|].
  destruct (history !! _) as [info|]; [|done].
  destruct (GetPrimitiveBetween _ _ _) as [mp|]; [|done].
  apply (IH (parent_node info) (path_mps ++ [mp]) (tick s)).
Qed.

Lemma relax_fields curr_node pq history s next_node :
  let r := relax Elapsed curr_node (pq, history, s) next_node in
  visited_states_ (snd r) = visited_states_ s
  ∧ expanded (snd r) = expanded s.
Proof.
  unfold relax. destruct (history_index _ _) as [info history1].
  by destruct (cost_lt _ _).
Qed.

Lemma fold_relax_fields curr_node next_nodes : ∀ pq history s,
  let r := fold_left (relax Elapsed curr_node) next_nodes (pq, history, s) in
  visited_states_ (snd r) = visited_states_ s
  ∧ expanded (snd r) = expanded s.
Proof.
  induction next_nodes as [|n next_nodes IH]; intros pq history s; [done|].
  cbn [fold_left].
  pose proof (relax_fields curr_node pq history s n) as [Hv He].
  destruct (relax _ _ _ n) as [[pq1 history1] s1].
  destruct (IH pq1 history1 s1) as [Hv' He']. cbn in *. split; congruence.
Qed.

(** *** No state is expanded twice *)

Lemma visit_visited_inv curr_node s :
  visited_inv s →
  contains (visited_states_ s) (state curr_node) = false →
  visited_inv (visit curr_node s).
Proof.
  intros [Hvis Hnd] Hnew. split; cbn.
  - unfold insert_state. rewrite Hnew, fmap_app, Hvis. done.
  - unfold insert_state. rewrite Hnew, fmap_app.
    apply NoDup_app. split; [done|]. split.
    + intros k Hk Hk'. apply list_elem_of_singleton in Hk' as ->.
      by apply contains_false in Hnew.
    + apply NoDup_singleton.
Qed.

Lemma visited_inv_fields s s' :
  visited_states_ s' = visited_states_ s → expanded s' = expanded s →
  visited_inv s → visited_inv s'.
Proof. intros Hv He [Hvis Hnd]. split; congruence. Qed.

Lemma search_loop_visited_inv rfuel end_state d parallel fuel pq history s :
  visited_inv s →
  visited_inv (snd (loop rfuel end_state d parallel fuel pq history s)).
Proof.
  apply (search_loop_rule rfuel end_state d parallel
           (λ _ _ s, visited_inv s) (λ _ s, visited_inv s)).
  - done.
  - done.
  - intros _ _ s0 _ Hinv _ _. by apply (visited_inv_fields s0).
  - intros _ history0 s0 curr_node Hinv _ _ _.
    destruct (recover_loop_fields rfuel history0 curr_node [] (tick s0))
      as (Hv & He & _).
    by apply (visited_inv_fields s0).
  - intros _ _ s0 _ Hinv _ _ _ _. by apply (visited_inv_fields s0).
  - intros _ _ s0 curr_node Hinv _ _ _ Hnew s1 _.
    apply visit_visited_inv; [by apply (visited_inv_fields s0)|done].
  - intros pq0 history0 s0 curr_node next_nodes Hinv _ _ _ Hnew s1 _
      pq' history' s' Hfold.
    pose proof (fold_relax_fields curr_node next_nodes (pq_pop pq0) history0
                  (add_time Elapsed "astar_expand" s1)) as [Hv He].
    rewrite Hfold in Hv, He. cbn [snd] in Hv, He.
    apply (visited_inv_fields s1); [done|done|].
    apply visit_visited_inv; [by apply (visited_inv_fields s0)|done].
Qed.

Lemma Search_visited_inv fuel start_state end_state d parallel s :
  visited_inv (snd (search fuel start_state end_state d parallel s)).
Proof.
  unfold Search. cbn zeta.
  assert (Hinit : visited_inv {| visited_states_ := []; timings := ∅;
                                 now := now s; expanded := [] |}).
  { split; [done|constructor]. }
  destruct (state_pos_within _ _ _ _); [done|].
  by apply search_loop_visited_inv.
Qed.

(** C5. In every run of [Search] the states handed to the expander, in the
    order of the calls, are exactly the stored visited states, and no two of
    them are equal under the quantisation: a state is expanded at most once.
    A node is entered into the visited set when it is handed over
    ([visit]), so the expander already finds it there. *)
Theorem Search_expands_once fuel start_state end_state d parallel s :
  let s' := snd (Search graph_ heuristic is_mp_collision_free ros_ok Elapsed
                   tbb_schedule fuel start_state end_state d parallel s) in
  state <$> expanded s' = visited_states_ s'
  ∧ NoDup (quantize <$> visited_states_ s')
  ∧ ∀ curr_node s0,
      contains (visited_states_ (visit curr_node s0)) (state curr_node) = true.
Proof.
  cbn zeta.
  destruct (Search_visited_inv fuel start_state end_state d parallel s)
    as [Hvis Hnd].
  split_and!; [done|done|].
  intros curr_node s0. cbn. unfold insert_state.
  destruct (contains _ _) eqn:Hc; [done|].
  apply contains_true. exists (state curr_node). split; [|done].
  apply elem_of_app. right. left.
Qed.

(** *** Consequences of the queue laws *)

Section QueueLaws.

Hypothesis laws : PriorityQueueLaws PQ.

Lemma pq_top_elem q n : pq_top q = Some n → n ∈ pq_elems q.
Proof. intros Htop. rewrite (pq_elems_pop PQ laws q n Htop). left. Qed.

Lemma pq_elem_pop q n m :
  pq_top q = Some n → m ∈ pq_elems q → m = n ∨ m ∈ pq_elems (pq_pop q).
Proof.
  intros Htop. rewrite (pq_elems_pop PQ laws q n Htop).
  by intros ?%elem_of_cons.
Qed.

Lemma pq_pop_elem q n m :
  pq_top q = Some n → m ∈ pq_elems (pq_pop q) → m ∈ pq_elems q.
Proof. intros Htop Hm. rewrite (pq_elems_pop PQ laws q n Htop). by right. Qed.

Lemma pq_push_elem q n m : m ∈ pq_elems (pq_push n q) ↔ m = n ∨ m ∈ pq_elems q.
Proof. rewrite (pq_elems_push PQ laws). apply elem_of_cons. Qed.

Lemma pq_top_push_new n : pq_top (pq_push n pq_new) = Some n.
Proof.
  destruct (pq_top (pq_push n pq_new)) as [m|] eqn:Htop.
  - apply pq_top_elem, pq_push_elem in Htop as [->|Hm]; [done|].
    rewrite (pq_elems_new PQ laws) in Hm. by apply elem_of_nil in Hm.
  - apply (pq_top_None PQ laws) in Htop.
    assert (Hn : n ∈ pq_elems (pq_push n pq_new)) by (apply pq_push_elem; by left).
    rewrite Htop in Hn. by apply elem_of_nil in Hn.
Qed.

End QueueLaws.

(** *** Lines 224-232 *)

(** C7. A successor is compared with the best cost on record for its
    (quantised) state; a state read for the first time gets an entry with
    [best_cost = +infinity].  The entry is overwritten exactly when the
    successor's motion cost is strictly lower than that best cost, and exactly
    then the successor is pushed; otherwise the queue is unchanged and the
    entry keeps its value. *)
Theorem relax_history_write curr_node pq history s next_node :
  let k := quantize (state next_node) in
  let best := best_cost (fst (history_index history (state next_node))) in
  let r := relax Elapsed curr_node (pq, history, s) next_node in
  (history !! k = None →
     best = PInf
     ∧ snd (history_index history (state next_node)) !! k = Some default_info)
  ∧ (∀ info, history !! k = Some info →
       best = best_cost info
       ∧ snd (history_index history (state next_node)) = history)
  ∧ (cost_lt (motion_cost next_node) best = true ↔
       match best with Fin b => motion_cost next_node < b | PInf => True end)
  ∧ (cost_lt (motion_cost next_node) best = true →
       fst (fst r) = pq_push next_node pq
       ∧ snd (fst r) !! k
         = Some {| parent_node := curr_node;
                   best_cost := Fin (motion_cost next_node) |})
  ∧ (cost_lt (motion_cost next_node) best = false →
       fst (fst r) = pq
       ∧ snd (fst r) = snd (history_index history (state next_node))
       ∧ snd r = s)
  ∧ (∀ k', k' ≠ k → snd (fst r) !! k' = history !! k').
Proof.
  cbn zeta. unfold relax, history_index.
  destruct (history !! quantize (state next_node)) as [info|] eqn:Hk; cbn [fst snd].
  - split_and!; try done.
    + by intros ? [= <-].
    + destruct (best_cost info); cbn; [apply bool_decide_eq_true|done].
    + intros ->. cbn. by rewrite lookup_insert_eq.
    + by intros ->.
    + intros k' Hk'. destruct (cost_lt _ _); cbn; [|done].
      by rewrite lookup_insert_ne.
  - cbn [cost_lt best_cost default_info]. split_and!; try done.
    + intros _. by rewrite lookup_insert_eq.
    + intros _. cbn. by rewrite lookup_insert_eq.
    + intros k' Hk'. cbn. by rewrite !lookup_insert_ne.
Qed.

(** *** The timing counters *)

Lemma timings_grow_refl s s' : timings s' = timings s → timings_grow s s'.
Proof. intros Ht. unfold timings_grow. rewrite Ht. split; [done|]. by left. Qed.

Lemma timings_grow_trans s1 s2 s3 :
  timings_grow s1 s2 → timings_grow s2 s3 → timings_grow s1 s3.
Proof.
  intros [H1 H1'] [H2 H2']. split; [by auto|].
  intros l Hl. destruct (H2' l Hl) as [Hl2|Hin]; [|by right]. by apply H1'.
Qed.

Lemma timings_grow_add_time label s :
  label ∈ timing_labels → timings_grow s (add_time Elapsed label s).
Proof.
  intros Hin. split; intros l; cbn; rewrite lookup_insert;
    case_decide as Hl; subst; auto.
Qed.

Lemma timings_grow_relax curr_node pq history s next_node :
  timings_grow s (snd (relax Elapsed curr_node (pq, history, s) next_node)).
Proof.
  unfold relax. destruct (history_index _ _) as [info history1].
  destruct (cost_lt _ _); cbn [snd].
  - apply timings_grow_add_time. set_solver.
  - by apply timings_grow_refl.
Qed.

Lemma timings_grow_fold_relax curr_node next_nodes : ∀ pq history s,
  timings_grow s
    (snd (fold_left (relax Elapsed curr_node) next_nodes (pq, history, s))).
Proof.
  induction next_nodes as [|n next_nodes IH]; intros pq history s.
  - by apply timings_grow_refl.
  - cbn [fold_left].
    pose proof (timings_grow_relax curr_node pq history s n) as Hstep.
    destruct (relax _ _ _ n) as [[pq1 history1] s1].
    eapply timings_grow_trans; [exact Hstep|apply IH].
Qed.

Lemma timings_grow_loop rfuel end_state d parallel fuel pq history s0 s :
  timings_grow s0 s →
  timings_grow s0 (snd (loop rfuel end_state d parallel fuel pq history s)).
Proof.
  apply (search_loop_rule rfuel end_state d parallel
           (λ _ _ s, timings_grow s0 s) (λ _ s, timings_grow s0 s)).
  - done.
  - done.
  - intros _ _ s1 _ Hinv _ _.
    eapply timings_grow_trans; [exact Hinv|by apply timings_grow_refl].
  - intros _ history1 s1 curr_node Hinv _ _ _.
    destruct (recover_loop_fields rfuel history1 curr_node [] (tick s1))
      as (_ & _ & Ht).
    eapply timings_grow_trans; [exact Hinv|by apply timings_grow_refl].
  - intros _ _ s1 _ Hinv _ _ _ _.
    eapply timings_grow_trans; [exact Hinv|].
    apply (timings_grow_add_time "astar_pop" (tick s1)). set_solver.
  - intros _ _ s1 curr_node Hinv _ _ _ _ s2 _.
    eapply timings_grow_trans; [exact Hinv|].
    apply (timings_grow_add_time "astar_pop" (tick s1)). set_solver.
  - intros pq1 history1 s1 curr_node next_nodes Hinv _ _ _ _ s2 _
      pq' history' s' Hfold.
    pose proof (timings_grow_fold_relax curr_node next_nodes (pq_pop pq1)
                  history1 (add_time Elapsed "astar_expand" s2)) as Hg.
    rewrite Hfold in Hg. cbn [snd] in Hg.
    eapply timings_grow_trans; [exact Hinv|].
    eapply timings_grow_trans; [|exact Hg].
    eapply timings_grow_trans;
      [apply (timings_grow_add_time "astar_pop" (tick s1)); set_solver|].
    apply (timings_grow_add_time "astar_expand" s2). set_solver.
Qed.


(** *** The sign of the threshold *)

Lemma search_loop_neg rfuel end_state d parallel fuel :
  ∀ pq history s,
    loop rfuel end_state (- d) parallel fuel pq history s
    = loop rfuel end_state d parallel fuel pq history s.
Proof.
  induction fuel as [|fuel IH]; intros pq history s; [done|].
  cbn [search_loop]. destruct (pq_top pq) as [curr_node|]; [|done].
  destruct (negb _); [done|]. rewrite state_pos_within_neg.
  destruct (state_pos_within _ _ _ _); [done|].
  destruct (contains _ _); [by rewrite IH|].
  destruct (expander _ _ _ _ _ _ _); [|done].
  destruct (fold_left _ _ _) as [[pq' history'] s']. apply IH.
Qed.

(** C9. [Search] with threshold [-d] returns what it returns with threshold
    [d], and leaves the same state behind: the threshold is only ever used
    through its square. *)
Theorem Search_threshold_sign fuel start_state end_state d parallel s :
  Search graph_ heuristic is_mp_collision_free ros_ok Elapsed tbb_schedule
    fuel start_state end_state (- d) parallel s
  = Search graph_ heuristic is_mp_collision_free ros_ok Elapsed tbb_schedule
      fuel start_state end_state d parallel s.
Proof.
  unfold Search. cbn zeta.
  by rewrite state_pos_within_neg, search_loop_neg.
Qed.

(** *** The members do not survive into the next call *)

(** C10. [Search] clears the visited set before the early-exit test: after
    an early exit [GetVisitedStates] is empty, and in every case the outcome
    and the state left behind do not depend on the visited set (or the
    timings) of earlier calls. *)
Theorem Search_clears_visited fuel start_state end_state d parallel :
  (∀ s,
     state_pos_within start_state end_state (spatial_dim graph_) d = true →
     fst (Search graph_ heuristic is_mp_collision_free ros_ok Elapsed
            tbb_schedule fuel start_state end_state d parallel s)
     = Returned []
     ∧ GetVisitedStates
         (snd (Search graph_ heuristic is_mp_collision_free ros_ok Elapsed
                 tbb_schedule fuel start_state end_state d parallel s))
       = [])
  ∧ (∀ s1 s2,
       now s1 = now s2 →
       Search graph_ heuristic is_mp_collision_free ros_ok Elapsed
         tbb_schedule fuel start_state end_state d parallel s1
       = Search graph_ heuristic is_mp_collision_free ros_ok Elapsed
           tbb_schedule fuel start_state end_state d parallel s2).
Proof.
  split.
  - intros s Hclose. unfold Search. cbn zeta. by rewrite Hclose.
  - intros s1 s2 Hnow. unfold Search. cbn zeta. by rewrite Hnow.
Qed.

(** *** What the expander returns *)

Lemma expand_step_spec visited node col i l :
  expand_step graph_ heuristic is_mp_collision_free visited node col i = Some l →
  ∀ n, n ∈ l ↔
    ∃ mp0, get_mp_between_indices graph_ i col = Some mp0
           ∧ contains visited (end_state_ (translate mp0 (state node))) = false
           ∧ is_mp_collision_free (translate mp0 (state node)) = true
           ∧ n = next_node_of heuristic node i (translate mp0 (state node)).
Proof.
  unfold expand_step, get_mp_between_indices.
  destruct (edge_at graph_ i col <? 0)%Z.
  { intros [= <-] n. split; [by intros ?%elem_of_nil|]. by intros (? & ? & _). }
  destruct (mps_ graph_ !! _) as [mp0|]; cbn; [|done].
  destruct (contains _ _) eqn:Hc.
  { intros [= <-] n. split; [by intros ?%elem_of_nil|].
    intros (? & [= <-] & ? & _). congruence. }
  destruct (is_mp_collision_free _) eqn:Hf; cbn.
  - intros [= <-] n. rewrite list_elem_of_singleton. split.
    + intros ->. by exists mp0.
    + by intros (? & [= <-] & _ & _ & ->).
  - intros [= <-] n. split; [by intros ?%elem_of_nil|].
    intros (? & [= <-] & _ & ? & _). congruence.
Qed.

Lemma elem_of_mapM_concat {A B} (f : A → option (list B)) l k n :
  mapM f l = Some k →
  n ∈ concat k ↔ ∃ i l', i ∈ l ∧ f i = Some l' ∧ n ∈ l'.
Proof.
  intros Hk%mapM_Some. induction Hk as [|i l' l k Hi _ IH]; cbn.
  - split; [by intros ?%elem_of_nil|]. by intros (? & ? & ?%elem_of_nil & _).
  - rewrite elem_of_app, IH. split.
    + intros [Hn|(j & l'' & Hj & Hfj & Hn)].
      * exists i, l'. split_and!; [left|done|done].
      * exists j, l''. split_and!; [by right|done|done].
    + intros (j & l'' & Hj & Hfj & Hn). apply elem_of_cons in Hj as [->|Hj].
      * left. congruence.
      * right. by exists j, l''.
Qed.

Lemma elem_of_Expand visited node nodes n :
  Expand graph_ heuristic is_mp_collision_free visited node = Some nodes →
  n ∈ nodes ↔
    ∃ i mp, edge graph_ is_mp_collision_free node i mp
            ∧ contains visited (end_state_ mp) = false
            ∧ n = next_node_of heuristic node i mp.
Proof.
  rewrite Expand_mapM. destruct (mapM _ _) as [k|] eqn:Hk; cbn; [|done].
  intros [= <-]. rewrite (elem_of_mapM_concat _ _ _ _ Hk). split.
  - intros (i & l & Hi & Hstep & Hn).
    apply (expand_step_spec _ _ _ _ _ Hstep) in Hn
      as (mp0 & Hmp0 & Hc & Hf & ->).
    exists i, (translate mp0 (state node)). split_and!; [|done|done].
    split; [|by exists mp0]. apply elem_of_seq in Hi. lia.
  - intros (i & mp & (Hi & mp0 & Hmp0 & -> & Hf) & Hc & ->).
    destruct (expand_step graph_ heuristic is_mp_collision_free visited node
                (NormIndex graph_ (state_index node)) i) as [l|] eqn:Hstep.
    + exists i, l. split_and!; [apply elem_of_seq; lia|done|].
      apply (expand_step_spec _ _ _ _ _ Hstep). by exists mp0.
    + exfalso. revert Hstep. unfold expand_step.
      destruct (edge_at _ _ _ <? 0)%Z; [done|]. rewrite Hmp0. cbn.
      by repeat case_match.
Qed.

Lemma elem_of_expander parallel s node nodes n :
  (∀ t, valid_schedule (edges_rows graph_) (tbb_schedule t)) →
  expander graph_ heuristic is_mp_collision_free tbb_schedule parallel s node
  = Some nodes →
  n ∈ nodes ↔
    ∃ i mp, edge graph_ is_mp_collision_free node i mp
            ∧ contains (visited_states_ s) (end_state_ mp) = false
            ∧ n = next_node_of heuristic node i mp.
Proof.
  intros Hsched. unfold expander. destruct parallel; [|apply elem_of_Expand].
  intros Hpar.
  pose proof (ExpandPar_Expand graph_ heuristic is_mp_collision_free
                (tbb_schedule (now s)) (visited_states_ s) node
                (Hsched (now s))) as Hser.
  destruct (Expand _ _ _ _ _) as [nodes0|] eqn:Hexp; [|congruence].
  destruct Hser as (nodes' & Hpar' & Hperm).
  assert (nodes' = nodes) as -> by congruence.
  rewrite Hperm. by apply elem_of_Expand.
Qed.

(** *** The invariant of the main loop *)

Section Correctness.

Variable start_state : State.
Variable end_state : State.
Variable d : Qc.

Hypothesis laws : PriorityQueueLaws PQ.
Hypothesis schedules_valid :
  ∀ t, valid_schedule (edges_rows graph_) (tbb_schedule t).

Local Abbreviation start_node := (start_node_of heuristic start_state).
Local Abbreviation reach :=
  (reachable graph_ heuristic is_mp_collision_free start_node).
Local Abbreviation edg := (edge graph_ is_mp_collision_free).
Local Abbreviation goal := (is_goal graph_ end_state d).
Local Abbreviation inv :=
  (search_inv graph_ heuristic is_mp_collision_free start_node end_state d).

Lemma search_inv_fields pq history s s' :
  visited_states_ s' = visited_states_ s → expanded s' = expanded s →
  inv pq history s → inv pq history s'.
Proof.
  intros Hv He [Hvis H1 H2 H3 H4 H5 H6].
  split; rewrite ?He; try done. by apply (visited_inv_fields s).
Qed.

Lemma search_inv_init s0 :
  visited_states_ s0 = [] → expanded s0 = [] →
  inv (pq_push start_node pq_new) ∅ s0.
Proof.
  intros Hv He. split; rewrite ?He.
  - split; rewrite Hv, ?He; [done|constructor].
  - intros q [->|Hq]%(pq_push_elem laws); [constructor|].
    rewrite (pq_elems_new PQ laws) in Hq. by apply elem_of_nil in Hq.
  - by intros e ?%elem_of_nil.
  - intros k info c Hk. by rewrite lookup_empty in Hk.
  - intros q [->|Hq]%(pq_push_elem laws); [by left|].
    rewrite (pq_elems_new PQ laws) in Hq. by apply elem_of_nil in Hq.
  - by intros e ?%elem_of_nil.
  - by intros e ?%elem_of_nil.
Qed.

Lemma search_inv_pop pq history s curr_node :
  inv pq history s → pq_top pq = Some curr_node →
  inv (pq_pop pq) history s.
Proof.
  intros [Hvis H1 H2 H3 H4 H5 H6] Htop. split; try done.
  - intros q Hq. by eapply H1, pq_pop_elem.
  - intros q Hq. by eapply H4, pq_pop_elem.
Qed.

Lemma search_inv_visit pq history s curr_node :
  inv pq history s →
  reach curr_node → curr_node = start_node ∨ recorded history curr_node →
  goal curr_node = false →
  contains (visited_states_ s) (state curr_node) = false →
  inv pq history (visit curr_node s).
Proof.
  intros [Hvis H1 H2 H3 H4 H5 H6] Hreach Hrec Hgoal Hnew.
  split; cbn [expanded visit]; try done.
  - by apply visit_visited_inv.
  - intros e [He| ->%list_elem_of_singleton]%elem_of_app; auto.
  - intros k info c Hk Hc. destruct (H3 k info c Hk Hc) as [Hp Hedge].
    split; [|done]. apply elem_of_app. by left.
  - intros e [He| ->%list_elem_of_singleton]%elem_of_app; auto.
  - intros e [He| ->%list_elem_of_singleton]%elem_of_app; auto.
Qed.

Lemma relax_cases curr_node pq history s n :
  let k := quantize (state n) in
  (relax Elapsed curr_node (pq, history, s) n = (pq, history, s)
   ∧ ∃ info c, history !! k = Some info ∧ best_cost info = Fin c
               ∧ c <= motion_cost n)
  ∨ (relax Elapsed curr_node (pq, history, s) n
     = (pq_push n pq,
        <[k := {| parent_node := curr_node; best_cost := Fin (motion_cost n) |}]>
          history,
        add_time Elapsed "astar_push" s)
     ∧ ∀ info c, history !! k = Some info → best_cost info = Fin c →
                 motion_cost n < c).
Proof.
  cbn zeta. unfold relax, history_index.
  destruct (history !! quantize (state n)) as [info|] eqn:Hk.
  - destruct (best_cost info) as [c|] eqn:Hbest; cbn [cost_lt].
    + case_bool_decide as Hlt.
      * right. split; [done|]. intros ? ? [= <-] ?. congruence.
      * left. split; [done|]. exists info, c. split_and!; [done|done|qc_lra].
    + right. split; [done|]. intros ? ? [= <-] ?. congruence.
  - cbn [best_cost default_info cost_lt]. right.
    split; [by rewrite insert_insert_eq|done].
Qed.

Lemma recorded_insert history n k p c :
  recorded history n →
  (∀ info c', history !! k = Some info → best_cost info = Fin c' → c < c') →
  recorded (<[k := {| parent_node := p; best_cost := Fin c |}]> history) n.
Proof.
  intros (info & c' & Hk & Hbest & Hle) Hlt.
  destruct (decide (k = quantize (state n))) as [->|Hne].
  - exists {| parent_node := p; best_cost := Fin c |}, c.
    rewrite lookup_insert_eq. split_and!; [done|done|].
    specialize (Hlt info c' Hk Hbest). qc_lra.
  - exists info, c'. by rewrite lookup_insert_ne.
Qed.

Lemma search_inv_relax curr_node pq history s i mp :
  inv pq history s → curr_node ∈ expanded s → edg curr_node i mp →
  ∀ pq' history' s',
    relax Elapsed curr_node (pq, history, s) (next_node_of heuristic curr_node i mp)
    = (pq', history', s') →
    inv pq' history' s'.
Proof.
  intros Hinv Hcurr Hedge pq' history' s' Hrelax.
  destruct (relax_cases curr_node pq history s
              (next_node_of heuristic curr_node i mp))
    as [[Heq _]|[Heq Hlt]]; rewrite Heq in Hrelax; injection Hrelax as <- <- <-.
  { done. }
  destruct Hinv as [Hvis H1 H2 H3 H4 H5 H6].
  cbn [state next_node_of motion_cost] in *.
  split; cbn [expanded visited_states_ add_time]; try done.
  - by apply (visited_inv_fields s).
  - intros q [->|Hq]%(pq_push_elem laws); [|by auto].
    econstructor; [|done]. by apply H2.
  - intros k info c. rewrite lookup_insert. case_decide as Hk.
    + intros [= <-] [= <-]. cbn. split; [done|]. by exists i, mp.
    + by apply H3.
  - intros q [->|Hq]%(pq_push_elem laws).
    + right. eexists _, _. cbn. rewrite lookup_insert_eq.
      split_and!; [done|done|qc_lra].
    + destruct (H4 q Hq) as [->|Hrec]; [by left|right].
      by apply recorded_insert.
  - intros e He. destruct (H5 e He) as [->|Hrec]; [by left|right].
    by apply recorded_insert.
Qed.

Lemma search_inv_fold_relax curr_node next_nodes : ∀ pq history s,
  inv pq history s → curr_node ∈ expanded s →
  (∀ n, n ∈ next_nodes →
     ∃ i mp, edg curr_node i mp ∧ n = next_node_of heuristic curr_node i mp) →
  ∀ pq' history' s',
    fold_left (relax Elapsed curr_node) next_nodes (pq, history, s)
    = (pq', history', s') →
    inv pq' history' s'.
Proof.
  induction next_nodes as [|n next_nodes IH];
    intros pq history s Hinv Hcurr Hnodes pq' history' s' Hfold.
  { by injection Hfold as <- <- <-. }
  cbn [fold_left] in Hfold.
  destruct (relax Elapsed curr_node (pq, history, s) n)
    as [[pq1 history1] s1] eqn:Hrelax.
  destruct (Hnodes n) as (i & mp & Hedge & ->); [left|].
  pose proof (relax_fields curr_node pq history s
                (next_node_of heuristic curr_node i mp)) as [_ He].
  rewrite Hrelax in He. cbn [snd] in He.
  eapply (IH pq1 history1 s1); [|by rewrite He| |done].
  - by eapply search_inv_relax.
  - intros n Hn. apply Hnodes. by right.
Qed.

Lemma search_inv_stale pq history s curr_node :
  inv pq history s → pq_top pq = Some curr_node →
  inv (pq_pop pq) history (add_time Elapsed "astar_pop" (tick s)).
Proof.
  intros Hinv Htop.
  apply (search_inv_fields _ _ s); [done|done|]. by eapply search_inv_pop.
Qed.

Lemma search_inv_fresh parallel pq history s curr_node next_nodes :
  inv pq history s → pq_top pq = Some curr_node →
  goal curr_node = false →
  contains (visited_states_ s) (state curr_node) = false →
  let s1 := visit curr_node (add_time Elapsed "astar_pop" (tick s)) in
  expander graph_ heuristic is_mp_collision_free tbb_schedule parallel s1
    curr_node = Some next_nodes →
  ∀ pq' history' s',
    fold_left (relax Elapsed curr_node) next_nodes
      (pq_pop pq, history, add_time Elapsed "astar_expand" s1)
    = (pq', history', s') →
    inv pq' history' s'.
Proof.
  intros Hinv Htop Hgoal Hnew s1 Hexp pq' history' s2 Hfold.
  assert (Hcurr : curr_node ∈ pq_elems pq) by (by apply pq_top_elem).
  eapply (search_inv_fold_relax curr_node next_nodes); [| | |exact Hfold].
  - apply (search_inv_fields _ _ s1); [done|done|].
    apply search_inv_visit;
      [|by eapply inv_pq_reachable|by eapply inv_pq_recorded|done|done].
    by eapply search_inv_stale.
  - cbn. apply elem_of_app. right. left.
  - intros n Hn.
    apply (elem_of_expander parallel s1 curr_node next_nodes n schedules_valid Hexp)
      in Hn as (i & mp & Hedge & _ & ->). eauto.
Qed.

(** *** Termination on a finite set of reachable nodes *)

Section Termination.

Variable known : list Node2.
Hypothesis reachable_known : ∀ n, reach n → n ∈ known.

Lemma recovery_inv_fields history s s' :
  expanded s' = expanded s → recovery_inv history s → recovery_inv history s'.
Proof. intros He [H1 H2]. split; rewrite ?He; done. Qed.

Lemma recovery_inv_visit history s curr_node :
  recovery_inv history s → recovery_inv history (visit curr_node s).
Proof.
  intros [H1 H2]. split; [done|]. intros k info Hk. cbn [expanded visit].
  destruct (H2 k info Hk) as (i & Hi & Hlt). exists i. split.
  - by apply lookup_app_l_Some.
  - intros j e Hj Hq. apply lookup_app_Some in Hj as [Hj|[Hlen Hj]]; [by eauto|].
    apply lookup_lt_Some in Hi. lia.
Qed.

Lemma recovery_inv_relax curr_node pq history s n :
  recovery_inv history s → visited_inv s →
  last (expanded s) = Some curr_node →
  contains (visited_states_ s) (state n) = false →
  ∀ pq' history' s',
    relax Elapsed curr_node (pq, history, s) n = (pq', history', s') →
    recovery_inv history' s'.
Proof.
  intros [H1 H2] [Hvis _] Hlast Hnew pq' history' s' Hrelax.
  destruct (relax_cases curr_node pq history s n) as [[Heq _]|[Heq _]];
    rewrite Heq in Hrelax; injection Hrelax as <- <- <-; [done|].
  split; cbn [expanded add_time].
  - intros k info. rewrite lookup_insert. case_decide; [|by eauto].
    intros [= <-]. by eexists.
  - intros k info. rewrite lookup_insert. case_decide as Hk; [|by eauto].
    intros [= <-]. cbn [parent_node]. subst k.
    rewrite last_lookup in Hlast. eexists. split; [exact Hlast|].
    intros j e Hj Hq. exfalso.
    apply not_true_iff_false in Hnew. apply Hnew, contains_true.
    exists (state e). split; [|done]. rewrite Hvis.
    apply list_elem_of_fmap. exists e. split; [done|].
    by eapply list_elem_of_lookup_2.
Qed.

Lemma recovery_inv_fold_relax curr_node next_nodes : ∀ pq history s,
  recovery_inv history s → visited_inv s →
  last (expanded s) = Some curr_node →
  (∀ n, n ∈ next_nodes → contains (visited_states_ s) (state n) = false) →
  ∀ pq' history' s',
    fold_left (relax Elapsed curr_node) next_nodes (pq, history, s)
    = (pq', history', s') →
    recovery_inv history' s'.
Proof.
  induction next_nodes as [|n next_nodes IH];
    intros pq history s Hrec Hvis Hlast Hnew pq' history' s' Hfold.
  { by injection Hfold as <- <- <-. }
  cbn [fold_left] in Hfold.
  destruct (relax Elapsed curr_node (pq, history, s) n)
    as [[pq1 history1] s1] eqn:Hrelax.
  pose proof (relax_fields curr_node pq history s n) as [Hv He].
  rewrite Hrelax in Hv, He. cbn [snd] in Hv, He.
  eapply (IH pq1 history1 s1); [| | | |done].
  - eapply recovery_inv_relax; [done|done|done| |done]. apply Hnew. left.
  - by apply (visited_inv_fields s).
  - by rewrite He.
  - intros m Hm. rewrite Hv. apply Hnew. by right.
Qed.

Lemma recover_loop_answers history s :
  recovery_inv history s →
  ∀ fuel bound curr_node path_mps s1,
    (bound < fuel)%nat →
    (∀ info, history !! quantize (state curr_node) = Some info →
       ∃ i, (i < bound)%nat ∧ expanded s !! i = Some (parent_node info)) →
    answered (fst (recover fuel history curr_node path_mps s1)).
Proof.
  intros [_ Hearlier]. induction fuel as [|fuel IH];
    intros bound curr_node path_mps s1 Hfuel Hparent; [lia|].
  cbn [recover_loop]. destruct (negb _); [done|].
  destruct (bool_decide _); [done|].
  destruct (history !! quantize (state curr_node)) as [info|] eqn:Hk; [|done].
  destruct (GetPrimitiveBetween _ _ _) as [mp|]; [|done].
  destruct (Hparent info eq_refl) as (i & Hi & Hlookup).
  apply (IH i); [lia|].
  intros info' Hk'. destruct (Hearlier _ _ Hk') as (i' & Hlookup' & Hlt).
  exists i'. split; [|done]. by eapply Hlt.
Qed.

Lemma expand_step_length visited node col i l :
  expand_step graph_ heuristic is_mp_collision_free visited node col i = Some l →
  (length l <= 1)%nat.
Proof.
  unfold expand_step. destruct (_ <? 0)%Z; [intros [= <-]; cbn; lia|].
  destruct (get_mp_between_indices _ _ _) as [mp0|]; cbn; [|done].
  repeat case_match; intros [= <-]; cbn; lia.
Qed.

Lemma mapM_concat_length {A B} (f : A → option (list B)) l k :
  mapM f l = Some k →
  (∀ i l', f i = Some l' → (length l' <= 1)%nat) →
  (length (concat k) <= length l)%nat.
Proof.
  intros Hk%mapM_Some Hone. induction Hk as [|i l' l k Hi _ IH]; cbn; [lia|].
  rewrite length_app. specialize (Hone i l' Hi). lia.
Qed.

Lemma expander_length parallel s node nodes :
  expander graph_ heuristic is_mp_collision_free tbb_schedule parallel s node
  = Some nodes →
  (length nodes <= edges_rows graph_)%nat.
Proof.
  assert (Hser : ∀ visited nodes0,
            Expand graph_ heuristic is_mp_collision_free visited node
            = Some nodes0 →
            (length nodes0 <= edges_rows graph_)%nat).
  { intros visited nodes0. rewrite Expand_mapM.
    destruct (mapM _ _) as [k|] eqn:Hk; cbn; [|done]. intros [= <-].
    pose proof (mapM_concat_length _ _ _ Hk) as Hlen.
    rewrite length_seq in Hlen. apply Hlen.
    intros i l'. apply expand_step_length. }
  unfold expander. destruct parallel; [|apply Hser]. intros Hpar.
  pose proof (ExpandPar_Expand graph_ heuristic is_mp_collision_free
                (tbb_schedule (now s)) (visited_states_ s) node
                (schedules_valid (now s))) as Hperm.
  destruct (Expand _ _ _ _ _) as [nodes0|] eqn:Hexp; [|congruence].
  destruct Hperm as (nodes' & Hpar' & Hperm).
  assert (nodes' = nodes) as -> by congruence.
  rewrite Hperm. by eapply Hser.
Qed.

Lemma fold_relax_length curr_node next_nodes : ∀ pq history s pq' history' s',
  fold_left (relax Elapsed curr_node) next_nodes (pq, history, s)
  = (pq', history', s') →
  (length (pq_elems pq') <= length (pq_elems pq) + length next_nodes)%nat.
Proof.
  induction next_nodes as [|n next_nodes IH];
    intros pq history s pq' history' s' Hfold.
  { injection Hfold as <- <- <-. lia. }
  cbn [fold_left] in Hfold.
  destruct (relax_cases curr_node pq history s n) as [[Heq _]|[Heq _]];
    rewrite Heq in Hfold; apply IH in Hfold; cbn [length]; [lia|].
  rewrite (pq_elems_push PQ laws) in Hfold. cbn in Hfold. lia.
Qed.

Lemma expanded_length pq history s :
  inv pq history s → (length (expanded s) <= length known)%nat.
Proof.
  intros Hinv. apply submseteq_length, NoDup_submseteq.
  - destruct (inv_vis _ _ _ _ _ _ _ _ _ Hinv) as [Hvis Hnd].
    rewrite Hvis, <- list_fmap_compose in Hnd. by eapply NoDup_fmap_1.
  - intros e He. by eapply reachable_known, inv_expanded_reachable.
Qed.

Lemma search_loop_answers parallel rfuel fuel pq history s :
  (length known < rfuel)%nat →
  inv pq history s → recovery_inv history s →
  (length (pq_elems pq)
   + S (edges_rows graph_) * (length known - length (expanded s)) < fuel)%nat →
  answered (fst (loop rfuel end_state d parallel fuel pq history s)).
Proof.
  intros Hrfuel Hinv Hrec Hfuel.
  assert (Hall : inv pq history s ∧ recovery_inv history s
                 ∧ (length (pq_elems pq)
                    + S (edges_rows graph_)
                      * (length known - length (expanded s)) < fuel)%nat)
    by done.
  revert Hall. clear Hinv Hrec Hfuel.
  apply (search_loop_rule_fuel rfuel end_state d parallel
           (λ fuel pq history s,
              inv pq history s ∧ recovery_inv history s
              ∧ (length (pq_elems pq)
                 + S (edges_rows graph_)
                   * (length known - length (expanded s)) < fuel)%nat)
           (λ out _, answered out)).
  - intros pq0 history0 s0 (_ & _ & Hlt). by apply Nat.nlt_0_r in Hlt.
  - done.
  - done.
  - intros fuel0 pq0 history0 s0 curr_node (Hinv & Hrec & _) _ _ _.
    apply (recover_loop_answers history0 s0 Hrec rfuel (length (expanded s0))).
    + pose proof (expanded_length _ _ _ Hinv). lia.
    + intros info Hk. destruct (rec_earlier _ _ Hrec _ _ Hk) as (i & Hi & _).
      exists i. split; [by eapply lookup_lt_Some|done].
  - intros fuel0 pq0 history0 s0 curr_node (Hinv & Hrec & Hlt) Htop _ _ _.
    split_and!.
    + by eapply search_inv_stale.
    + by apply (recovery_inv_fields _ s0).
    + cbn [expanded add_time tick].
      pose proof (Permutation_length (pq_elems_pop PQ laws pq0 curr_node Htop))
        as Hlen. cbn in Hlen. lia.
  - done.
  - intros fuel0 pq0 history0 s0 curr_node next_nodes (Hinv & Hrec & Hlt) Htop
      _ Hgoal Hnew s1 Hexp pq' history' s2 Hfold.
    assert (Hcurr : curr_node ∈ pq_elems pq0) by (by apply pq_top_elem).
    pose proof (fold_relax_fields curr_node next_nodes (pq_pop pq0) history0
                  (add_time Elapsed "astar_expand" s1)) as [Hv He].
    rewrite Hfold in Hv, He. cbn [snd] in Hv, He.
    assert (Hinv2 : inv pq' history' s2)
      by (by eapply (search_inv_fresh parallel pq0 history0 s0)).
    split_and!; [done| |].
    + eapply (recovery_inv_fold_relax curr_node next_nodes); [| | | |exact Hfold].
      * apply (recovery_inv_fields _ s1); [done|].
        by apply recovery_inv_visit, (recovery_inv_fields _ s0).
      * apply (visited_inv_fields s2); [done|done|]. by eapply inv_vis.
      * cbn. by rewrite last_snoc.
      * intros n Hn.
        apply (elem_of_expander parallel s1 curr_node next_nodes n
                 schedules_valid Hexp) in Hn as (i & mp & _ & Hc & ->).
        done.
    + pose proof (expanded_length _ _ _ Hinv2) as Hbound.
      pose proof (fold_relax_length _ _ _ _ _ _ _ _ Hfold) as Hpush.
      pose proof (expander_length _ _ _ _ Hexp) as Hrows.
      pose proof (Permutation_length (pq_elems_pop PQ laws pq0 curr_node Htop))
        as Hlen.
      rewrite He in Hbound |- *. unfold s1 in Hbound |- *.
      cbn [expanded visit add_time tick] in Hbound |- *.
      rewrite length_app in Hbound |- *. cbn [length] in Hbound, Hlen |- *.
      replace (length known - length (expanded s0))%nat
        with (S (length known - (length (expanded s0) + 1)))%nat in Hlt by lia.
      rewrite Nat.mul_succ_r in Hlt. lia.
Qed.

Lemma Search_answers parallel fuel s :
  (enough_fuel (edges_rows graph_) (length known) <= fuel)%nat →
  answered (fst (search fuel start_state end_state d parallel s)).
Proof.
  unfold enough_fuel. intros Hfuel. unfold Search. cbn zeta.
  destruct (state_pos_within _ _ _ _); [done|].
  apply search_loop_answers.
  - lia.
  - by apply search_inv_init.
  - split; intros k info Hk; by rewrite lookup_empty in Hk.
  - rewrite (pq_elems_push PQ laws), (pq_elems_new PQ laws). cbn. lia.
Qed.


End Termination.

(** *** Path recovery follows expander edges *)

Section Recovery.

Hypothesis separates :
  quantize_separates graph_ heuristic is_mp_collision_free start_node.

Local Abbreviation chain := (mp_chain graph_ is_mp_collision_free).
Local Abbreviation recovered' :=
  (recovered graph_ heuristic is_mp_collision_free start_node end_state d ros_ok).
Local Abbreviation cheapest' :=
  (cheapest graph_ heuristic is_mp_collision_free start_node).

Lemma path_cost_app path mp :
  path_cost (path ++ [mp]) = path_cost path + cost_ mp.
Proof.
  induction path as [|mp' path IH]; cbn; [ring|].
  fold (path_cost (path ++ [mp])). fold (path_cost path). rewrite IH. ring.
Qed.

Lemma recover_loop_chain pq history s fuel :
  inv pq history s →
  ∀ curr_node path_mps s1 path s2,
    reach curr_node →
    curr_node = start_node ∨ recorded history curr_node →
    recover fuel history curr_node path_mps s1 = (Returned path, s2) →
    ∃ x pre,
      path = pre ++ reverse path_mps
      ∧ chain x pre curr_node
      ∧ reach x
      ∧ (motion_cost x = 0 ∨ ∃ t, ros_ok t = false)
      ∧ path_cost pre + motion_cost x <= motion_cost curr_node
      ∧ (cheapest' curr_node → (∀ e, e ∈ expanded s → cheapest' e) →
         path_cost pre + motion_cost x = motion_cost curr_node).
Proof.
  intros Hinv. induction fuel as [|fuel IH];
    intros curr_node path_mps s1 path s2 Hreach Hrec; [done|].
  cbn [recover_loop]. destruct (ros_ok (now s1)) eqn:Hok; cbn [negb].
  2:{ intros [= <- <-]. exists curr_node, [].
      split_and!; [done|by constructor|done|eauto|cbn; qc_lra|].
      intros _ _. cbn. ring. }
  case_bool_decide as Hzero.
  { intros [= <- <-]. exists curr_node, [].
    split_and!; [done|by constructor|done|by left|cbn; qc_lra|].
    intros _ _. cbn. ring. }
  destruct Hrec as [->|(info & c & Hk & Hbest & Hle)]; [done|].
  rewrite Hk.
  destruct (inv_history _ _ _ _ _ _ _ _ _ Hinv _ _ _ Hk Hbest)
    as (Hparent & i & mp & Hedge & Hkey & Hc).
  assert (Hpreach : reach (parent_node info))
    by (by eapply inv_expanded_reachable).
  assert (Hchild : reach (next_node_of heuristic (parent_node info) i mp))
    by (by econstructor).
  destruct (separates (next_node_of heuristic (parent_node info) i mp) curr_node)
    as [Hidx Hst]; [done|done|done|].
  cbn [state_index state next_node_of] in Hidx, Hst.
  assert (Hget : GetPrimitiveBetween graph_ (parent_node info) curr_node
                 = Some mp).
  { unfold GetPrimitiveBetween. rewrite <- Hidx.
    destruct Hedge as (_ & mp0 & -> & -> & _). done. }
  rewrite Hget. intros Hrec.
  destruct (IH (parent_node info) (path_mps ++ [mp]) (tick s1) path s2)
    as (x & pre & -> & Hchain & Hx & Hstop & Hub & Hexact); [done| |done|].
  { by eapply inv_expanded_recorded. }
  exists x, (pre ++ [mp]). rewrite path_cost_app.
  split_and!; [|by econstructor|done|done|qc_lra|].
  - by rewrite reverse_app, <- app_assoc.
  - intros Hcurr Hexp. specialize (Hexact (Hexp _ Hparent) Hexp).
    specialize (Hcurr _ Hchild Hkey). cbn [motion_cost next_node_of] in Hcurr.
    qc_lra.
Qed.

Lemma recovered_nil : recovered' [].
Proof.
  exists start_node, start_node. split_and!; [constructor|constructor| |done].
  by constructor.
Qed.

Lemma search_loop_chain parallel rfuel fuel pq history s path s' :
  inv pq history s →
  loop rfuel end_state d parallel fuel pq history s = (Returned path, s') →
  recovered' path.
Proof.
  intros Hinv Hloop.
  cut (∀ path0, fst (loop rfuel end_state d parallel fuel pq history s)
                = Returned path0 → recovered' path0).
  { intros Hcut. apply Hcut. by rewrite Hloop. }
  revert Hinv. clear Hloop.
  apply (search_loop_rule rfuel end_state d parallel inv
           (λ out _, ∀ path0, out = Returned path0 → recovered' path0)).
  - done.
  - intros _ _ _ _ _ path0 [= <-]. apply recovered_nil.
  - intros _ _ _ _ _ _ _ path0 [= <-]. apply recovered_nil.
  - intros pq0 history0 s0 curr_node Hinv Htop _ Hgoal path0 Hret.
    destruct (RecoverPath _ _ _ _ _ _) as [out s2] eqn:Hrec.
    cbn [fst] in Hret. subst out.
    assert (Hcurr : curr_node ∈ pq_elems pq0) by (by apply pq_top_elem).
    destruct (recover_loop_chain pq0 history0 s0 rfuel Hinv curr_node []
                (tick s0) path0 s2) as (x & pre & -> & Hchain & Hx & Hstop & _);
      [by eapply inv_pq_reachable|by eapply inv_pq_recorded|done|].
    exists x, curr_node. rewrite app_nil_r.
    split_and!; [done|by eapply inv_pq_reachable|done|done].
  - intros pq0 history0 s0 curr_node Hinv Htop _ _ _.
    by eapply search_inv_stale.
  - done.
  - intros pq0 history0 s0 curr_node next_nodes Hinv Htop _ Hgoal Hnew s1 Hexp
      pq' history' s2 Hfold.
    by eapply (search_inv_fresh parallel pq0 history0 s0).
Qed.

Lemma Search_chain parallel fuel s path s' :
  search fuel start_state end_state d parallel s = (Returned path, s') →
  recovered' path.
Proof.
  unfold Search. cbn zeta. destruct (state_pos_within _ _ _ _).
  - intros [= <- <-]. apply recovered_nil.
  - apply search_loop_chain. by apply search_inv_init.
Qed.

(** *** No fault *)

Lemma recover_loop_safe pq history s fuel :
  inv pq history s →
  ∀ curr_node path_mps s1,
    reach curr_node →
    curr_node = start_node ∨ recorded history curr_node →
    safe (fst (recover fuel history curr_node path_mps s1)).
Proof.
  intros Hinv. induction fuel as [|fuel IH];
    intros curr_node path_mps s1 Hreach Hrec; [done|].
  cbn [recover_loop]. destruct (negb _); [done|].
  case_bool_decide as Hzero; [done|].
  destruct Hrec as [->|(info & c & Hk & Hbest & Hle)]; [done|].
  rewrite Hk.
  destruct (inv_history _ _ _ _ _ _ _ _ _ Hinv _ _ _ Hk Hbest)
    as (Hparent & i & mp & Hedge & Hkey & Hc).
  assert (Hchild : reach (next_node_of heuristic (parent_node info) i mp)).
  { econstructor; [|done]. by eapply inv_expanded_reachable. }
  destruct (separates (next_node_of heuristic (parent_node info) i mp) curr_node)
    as [Hidx Hst]; [done|done|done|].
  cbn [state_index state next_node_of] in Hidx, Hst.
  assert (Hget : GetPrimitiveBetween graph_ (parent_node info) curr_node
                 = Some mp).
  { unfold GetPrimitiveBetween. rewrite <- Hidx.
    destruct Hedge as (_ & mp0 & -> & -> & _). done. }
  rewrite Hget. apply IH.
  - by eapply inv_expanded_reachable.
  - by eapply inv_expanded_recorded.
Qed.

Lemma edge_at_indexed i j :
  bank_indexed graph_ → (0 <= edge_at graph_ i j)%Z →
  is_Some (mps_ graph_ !! Z.to_nat (edge_at graph_ i j)).
Proof.
  unfold bank_indexed, edge_at. intros Hbank. rewrite !nth_lookup.
  destruct (edges_ graph_ !! i) as [row|] eqn:Hrow; cbn;
    [|rewrite lookup_nil; cbn; lia].
  destruct (row !! j) as [e|] eqn:He; cbn; [|lia].
  intros Hpos. apply lookup_lt_is_Some.
  pose proof (proj1 (Forall_lookup _ _) (proj1 (Forall_lookup _ _) Hbank _ _ Hrow)
                _ _ He) as Hlt.
  cbn in Hlt. lia.
Qed.

Lemma expand_step_safe visited node col i :
  bank_indexed graph_ →
  is_Some (expand_step graph_ heuristic is_mp_collision_free visited node col i).
Proof.
  intros Hbank. unfold expand_step, get_mp_between_indices. cbn zeta.
  destruct (_ <? 0)%Z eqn:Hneg; [done|]. apply Z.ltb_ge in Hneg.
  destruct (edge_at_indexed i col Hbank Hneg) as [mp0 ->]. cbn.
  by repeat case_match.
Qed.

Lemma expander_safe parallel s node :
  bank_indexed graph_ →
  is_Some (expander graph_ heuristic is_mp_collision_free tbb_schedule parallel
             s node).
Proof.
  intros Hbank.
  assert (Hser : ∀ visited,
            is_Some (Expand graph_ heuristic is_mp_collision_free visited node)).
  { intros visited. rewrite Expand_mapM.
    destruct (mapM _ _) as [k|] eqn:Hk; cbn; [done|].
    assert (is_Some (mapM (expand_step graph_ heuristic is_mp_collision_free
                             visited node
                             (NormIndex graph_ (state_index node)))
                       (seq 0 (edges_rows graph_)))) as [k Hk'].
    { apply mapM_is_Some, Forall_forall. intros i _.
      by apply expand_step_safe. }
    congruence. }
  unfold expander. destruct parallel; [|apply Hser].
  pose proof (ExpandPar_Expand graph_ heuristic is_mp_collision_free
                (tbb_schedule (now s)) (visited_states_ s) node
                (schedules_valid (now s))) as Hperm.
  destruct (Hser (visited_states_ s)) as [nodes Hnodes]. rewrite Hnodes in Hperm.
  destruct Hperm as (nodes' & -> & _). done.
Qed.

Lemma search_loop_safe parallel rfuel fuel pq history s :
  bank_indexed graph_ →
  inv pq history s →
  safe (fst (loop rfuel end_state d parallel fuel pq history s)).
Proof.
  intros Hbank.
  apply (search_loop_rule rfuel end_state d parallel inv (λ out _, safe out)).
  - done.
  - done.
  - done.
  - intros pq0 history0 s0 curr_node Hinv Htop _ _.
    assert (Hcurr : curr_node ∈ pq_elems pq0) by (by apply pq_top_elem).
    eapply recover_loop_safe;
      [done|by eapply inv_pq_reachable|by eapply inv_pq_recorded].
  - intros pq0 history0 s0 curr_node Hinv Htop _ _ _.
    by eapply search_inv_stale.
  - intros pq0 history0 s0 curr_node _ _ _ _ _ s1 Hexp.
    destruct (expander_safe parallel s1 curr_node Hbank) as [nodes Hnodes].
    congruence.
  - intros pq0 history0 s0 curr_node next_nodes Hinv Htop _ Hgoal Hnew s1 Hexp
      pq' history' s2 Hfold.
    by eapply (search_inv_fresh parallel pq0 history0 s0).
Qed.

Lemma Search_safe parallel fuel s :
  bank_indexed graph_ →
  safe (fst (search fuel start_state end_state d parallel s)).
Proof.
  intros Hbank. unfold Search. cbn zeta.
  destruct (state_pos_within _ _ _ _); [done|].
  apply search_loop_safe; [done|]. by apply search_inv_init.
Qed.



Lemma mp_chain_free x path u :
  chain x path u → Forall (λ mp, is_mp_collision_free mp = true) path.
Proof.
  induction 1 as [|a path p i mp b _ IH (_ & mp0 & _ & _ & Hfree) _ _];
    [constructor|].
  apply Forall_app. split; [done|]. by repeat constructor.
Qed.


(** *** Contiguity of the recovered path *)

Section Contiguity.

Hypothesis dims : dims_ok graph_.
Hypothesis start_dim : length start_state = state_dim_ graph_.
Hypothesis lattice : lattice_ok graph_.
Hypothesis start_lattice : start_on_lattice graph_ start_state.

Local Abbreviation sdim := (graph_spatial_dim_ graph_).

Lemma edge_end_length p i mp :
  edg p i mp → length (state p) = state_dim_ graph_ →
  length (end_state_ mp) = state_dim_ graph_.
Proof.
  intros (_ & mp0 & Hget%get_mp_between_indices_elem & -> & _) Hp.
  destruct dims as [Hsd Hmps]. destruct (Hmps mp0 Hget) as (Hs & Hst & Hen).
  cbn. rewrite add_head_length; [done|].
  rewrite length_zip_with, !length_take. lia.
Qed.

Lemma reachable_length n : reach n → length (state n) = state_dim_ graph_.
Proof.
  induction 1 as [|p i mp _ IH Hedge]; [done|]. by eapply edge_end_length.
Qed.

Lemma edge_start_state p i mp :
  edg p i mp → length (state p) = state_dim_ graph_ →
  take sdim (start_state_ mp) = take sdim (state p)
  ∧ ∃ mp0,
      get_mp_between_indices graph_ i (NormIndex graph_ (state_index p)) = Some mp0
      ∧ drop sdim (start_state_ mp) = drop sdim (start_state_ mp0)
      ∧ drop sdim (end_state_ mp) = drop sdim (end_state_ mp0).
Proof.
  intros (_ & mp0 & Hget & -> & _) Hp.
  destruct dims as [Hsd Hmps].
  destruct (Hmps mp0 (get_mp_between_indices_elem _ _ _ _ Hget))
    as (Hs & Hst & Hen).
  cbn [start_state_ end_state_ translate]. rewrite Hs. split.
  - apply add_head_take; lia.
  - exists mp0. split; [done|].
    split; (apply add_head_drop; [apply length_zip_minus_take; lia|lia]).
Qed.

(** Along a chain every primitive starts in the state in which its
    predecessor ends. *)
Lemma mp_chain_contiguous x path u :
  chain x path u → length (state x) = state_dim_ graph_ →
  length (state u) = state_dim_ graph_
  ∧ (path = [] → same_vertex x u)
  ∧ (∀ mp, last path = Some mp →
       end_state_ mp = state u
       ∧ ∃ j mp0, get_mp_between_indices graph_ (state_index u) j = Some mp0
                  ∧ drop sdim (end_state_ mp) = drop sdim (end_state_ mp0))
  ∧ (∀ mp, head path = Some mp →
       take sdim (start_state_ mp) = take sdim (state x)
       ∧ ∃ k mp0,
           get_mp_between_indices graph_ k (NormIndex graph_ (state_index x))
           = Some mp0
           ∧ drop sdim (start_state_ mp) = drop sdim (start_state_ mp0))
  ∧ (∀ i mp1 mp2, path !! i = Some mp1 → path !! S i = Some mp2 →
       start_state_ mp2 = end_state_ mp1).
Proof.
  intros Hchain Hx.
  induction Hchain as [a b [Hidx Hst]|a path p i mp b _ IH Hedge Hbi Hbs].
  { split_and!; try done. by rewrite <- Hst. }
  destruct (IH Hx) as (Hp & Hnil & Hlast & Hhead & Hmid).
  destruct (edge_start_state p i mp Hedge Hp)
    as (Htake & mp0 & Hget & Hdrop_s & Hdrop_e).
  assert (Hjoin : ∀ mp1, last path = Some mp1 → start_state_ mp = end_state_ mp1).
  { intros mp1 Hl. destruct (Hlast mp1 Hl) as (Hend & j & mp10 & Hget1 & Hdrop1).
    rewrite <- (take_drop sdim (start_state_ mp)).
    rewrite <- (take_drop sdim (end_state_ mp1)).
    rewrite Htake, Hend. f_equal. rewrite <- Hend, Hdrop_s, Hdrop1.
    by eapply lattice. }
  split_and!.
  - rewrite Hbs. by eapply edge_end_length.
  - intros Habs. by destruct path.
  - intros mp' Hl. rewrite last_snoc in Hl. injection Hl as <-.
    split; [done|]. exists (NormIndex graph_ (state_index p)), mp0.
    by rewrite Hbi.
  - intros mp' Hh. destruct path as [|mp1 path].
    + cbn in Hh. injection Hh as <-. destruct (Hnil eq_refl) as [Hidx Hst].
      rewrite Hst, Hidx. split; [done|]. by exists i, mp0.
    + by apply Hhead.
  - intros k mp1 mp2 H1 H2.
    destruct (decide (S k < length path)%nat) as [Hlt|Hge].
    + rewrite lookup_app_l in H1, H2 by lia. by eapply Hmid.
    + assert (S k = length path) as Hk.
      { apply lookup_lt_Some in H2. rewrite length_app in H2. cbn in H2. lia. }
      rewrite lookup_app_l in H1 by lia.
      rewrite lookup_app_r, Hk, Nat.sub_diag in H2 by lia.
      injection H2 as <-. apply Hjoin.
      rewrite last_lookup. rewrite <- Hk. done.
Qed.

Lemma reachable_cost_positive n :
  costs_positive graph_ → reach n → n = start_node ∨ 0 < motion_cost n.
Proof.
  intros Hpos. induction 1 as [|p i mp _ IH Hedge]; [by left|right].
  destruct Hedge as (_ & mp0 & Hget%get_mp_between_indices_elem & -> & _).
  specialize (Hpos mp0 Hget). cbn.
  destruct IH as [->|IH]; cbn; qc_lra.
Qed.


End Contiguity.

(** *** Optimality *)

Section Optimality.

Hypothesis h_consistent :
  consistent graph_ heuristic is_mp_collision_free start_node.
Hypothesis h_admissible :
  admissible_at_goal graph_ heuristic is_mp_collision_free start_node
    end_state d.

Local Abbreviation opt :=
  (optimal_inv graph_ heuristic is_mp_collision_free start_node).

Lemma reachable_heuristic_cost n : reach n → heuristic_cost n = heuristic (state n).
Proof. by destruct 1. Qed.

Lemma contains_quantize visited a b :
  quantize a = quantize b → contains visited a = contains visited b.
Proof. intros Hq. unfold contains. by rewrite Hq. Qed.

Lemma contains_expanded pq history s st :
  inv pq history s →
  contains (visited_states_ s) st = true ↔
  ∃ e, e ∈ expanded s ∧ quantize (state e) = quantize st.
Proof.
  intros Hinv. rewrite contains_true.
  rewrite (inv_visited _ (inv_vis _ _ _ _ _ _ _ _ _ Hinv)). split.
  - intros (v & (e & -> & He)%list_elem_of_fmap & Hq). by exists e.
  - intros (e & He & Hq). exists (state e). split; [|done].
    apply list_elem_of_fmap. by exists e.
Qed.

Lemma edge_same_vertex a b i mp : same_vertex a b → edg a i mp → edg b i mp.
Proof. intros [Hi Hs]. unfold edge. by rewrite Hi, Hs. Qed.

Lemma contains_insert_state visited st st' :
  contains visited st = true → contains (insert_state visited st') st = true.
Proof.
  unfold insert_state. destruct (contains visited st'); [done|].
  rewrite !contains_true. intros (v & Hv & Hq). exists v. split; [|done].
  apply elem_of_app. by left.
Qed.

Lemma optimal_inv_fields todo pq history s s' :
  visited_states_ s' = visited_states_ s → expanded s' = expanded s →
  opt todo pq history s → opt todo pq history s'.
Proof. intros Hv He [H1 H2 H3 H4]. split; rewrite ?Hv, ?He; done. Qed.

Lemma optimal_inv_init s0 :
  visited_states_ s0 = [] → expanded s0 = [] →
  opt [] (pq_push start_node pq_new) ∅ s0.
Proof.
  intros Hv He. split; rewrite ?Hv, ?He.
  - by intros e m ?%elem_of_nil.
  - by intros e i mp ?%elem_of_nil.
  - intros st info c Hk. by rewrite lookup_empty in Hk.
  - intros _. apply (pq_push_elem laws). by left.
Qed.

(** Every reachable node that is not closed is dominated by an open node of
    the queue. *)
Lemma frontier pq history s m :
  inv pq history s → opt [] pq history s →
  reach m → contains (visited_states_ s) (state m) = false →
  ∃ q, q ∈ pq_elems pq
       ∧ contains (visited_states_ s) (state q) = false
       ∧ total_cost q <= motion_cost m + heuristic (state m).
Proof.
  intros Hinv Hopt Hm. induction Hm as [|p i mp Hp IH Hedge]; intros Hnew.
  - pose proof (opt_start _ _ _ _ _ _ _ _ Hopt Hnew) as Hin.
    exists start_node. split_and!; [done|done|]. unfold total_cost. cbn. qc_lra.
  - cbn [state next_node_of motion_cost] in *.
    pose proof (h_consistent p i mp Hp Hedge) as Hcons.
    destruct (contains (visited_states_ s) (state p)) eqn:Hcp.
    + apply (contains_expanded pq history s _ Hinv) in Hcp as (e & He & Hq).
      assert (Hereach : reach e) by (by eapply inv_expanded_reachable).
      pose proof (separates e p Hereach Hp Hq) as Hsame.
      assert (Hedge' : edg e i mp).
      { eapply edge_same_vertex; [|exact Hedge]. destruct Hsame. by split. }
      pose proof (opt_expanded _ _ _ _ _ _ _ _ Hopt e p He Hp (eq_sym Hq)) as Hle.
      destruct (opt_frontier _ _ _ _ _ _ _ _ Hopt e i mp He Hedge')
        as [Hc|[(q & Hq_in & Hq_key & Hq_cost)|Hin]].
      * congruence.
      * exists q. split_and!; [done| |].
        { rewrite <- Hnew. by apply contains_quantize. }
        assert (Hqreach : reach q) by (by eapply inv_pq_reachable).
        destruct (separates q (next_node_of heuristic p i mp) Hqreach)
          as [_ Hst]; [by econstructor|done|].
        cbn in Hst. unfold total_cost.
        rewrite (reachable_heuristic_cost q Hqreach), Hst. qc_lra.
      * by apply elem_of_nil in Hin.
    + destruct (IH eq_refl) as (q & Hq_in & Hq_new & Hq_cost).
      exists q. split_and!; [done|done|qc_lra].
Qed.

Lemma top_cheapest pq history s curr_node :
  inv pq history s → opt [] pq history s →
  pq_top pq = Some curr_node →
  contains (visited_states_ s) (state curr_node) = false →
  cheapest' curr_node.
Proof.
  intros Hinv Hopt Htop Hnew m Hm Hq.
  destruct (frontier pq history s m Hinv Hopt Hm) as (q & Hq_in & _ & Hq_cost).
  { rewrite <- Hnew. by apply contains_quantize. }
  pose proof (pq_top_min PQ laws pq curr_node q Htop Hq_in) as Hmin.
  assert (Hcreach : reach curr_node)
    by (eapply inv_pq_reachable; [done|by apply pq_top_elem]).
  destruct (separates m curr_node Hm Hcreach Hq) as [_ Hst].
  unfold total_cost in Hmin at 1.
  rewrite (reachable_heuristic_cost _ Hcreach), <- Hst in Hmin. qc_lra.
Qed.

Lemma goal_not_closed pq history s m :
  inv pq history s → reach m → goal m = true →
  contains (visited_states_ s) (state m) = false.
Proof.
  intros Hinv Hm Hgoal. apply not_true_iff_false.
  intros (e & He & Hq)%(contains_expanded pq history s _ Hinv).
  assert (Hereach : reach e) by (by eapply inv_expanded_reachable).
  destruct (separates e m Hereach Hm Hq) as [_ Hst].
  pose proof (inv_expanded_not_goal _ _ _ _ _ _ _ _ _ Hinv e He) as Hng.
  unfold is_goal in *. rewrite Hst in Hng. congruence.
Qed.

Lemma top_goal_least pq history s curr_node m :
  inv pq history s → opt [] pq history s →
  pq_top pq = Some curr_node →
  reach m → goal m = true → motion_cost curr_node <= motion_cost m.
Proof.
  intros Hinv Hopt Htop Hm Hgoal.
  destruct (frontier pq history s m Hinv Hopt Hm) as (q & Hq_in & _ & Hq_cost).
  { by eapply goal_not_closed. }
  pose proof (pq_top_min PQ laws pq curr_node q Htop Hq_in) as Hmin.
  assert (Hcreach : reach curr_node)
    by (eapply inv_pq_reachable; [done|by apply pq_top_elem]).
  destruct h_admissible as [Hnonneg Hzero].
  pose proof (Hnonneg (state curr_node)) as Hh.
  pose proof (Hzero m Hm Hgoal) as Hhm.
  unfold total_cost in Hmin at 1.
  rewrite (reachable_heuristic_cost _ Hcreach) in Hmin. qc_lra.
Qed.

Lemma drained_no_goal pq history s m :
  inv pq history s → opt [] pq history s →
  pq_top pq = None → reach m → goal m = false.
Proof.
  intros Hinv Hopt Htop Hm. apply not_true_iff_false. intros Hgoal.
  destruct (frontier pq history s m Hinv Hopt Hm) as (q & Hq_in & _).
  { by eapply goal_not_closed. }
  apply (pq_top_None PQ laws) in Htop. rewrite Htop in Hq_in.
  by apply elem_of_nil in Hq_in.
Qed.

Lemma optimal_inv_pop_stale pq history s curr_node :
  opt [] pq history s → pq_top pq = Some curr_node →
  contains (visited_states_ s) (state curr_node) = true →
  opt [] (pq_pop pq) history s.
Proof.
  intros [H1 H2 H3 H4] Htop Hold. split; [done| | |].
  - intros e i mp He Hedge.
    destruct (H2 e i mp He Hedge) as [Hc|[(q & Hq_in & Hq_key & Hq_cost)|Hin]];
      [by left| |by right; right].
    destruct (pq_elem_pop laws pq curr_node q Htop Hq_in) as [->|Hq_pop].
    + left. rewrite <- Hold. by apply contains_quantize.
    + right; left. by exists q.
  - intros st info c Hk Hbest Hnew.
    destruct (H3 st info c Hk Hbest Hnew) as (q & Hq_in & Hq_key & Hq_cost).
    destruct (pq_elem_pop laws pq curr_node q Htop Hq_in) as [->|Hq_pop].
    + rewrite (contains_quantize _ _ _ Hq_key) in Hold. congruence.
    + by exists q.
  - intros Hnew.
    destruct (pq_elem_pop laws pq curr_node _ Htop (H4 Hnew)) as [Heq|Hpop];
      [|done].
    rewrite <- Heq in Hold. congruence.
Qed.

Lemma contains_insert_state_self visited st st' :
  quantize st = quantize st' → contains (insert_state visited st') st = true.
Proof.
  intros Hq. unfold insert_state. destruct (contains visited st') eqn:Hc.
  - rewrite <- Hc. by apply contains_quantize.
  - apply contains_true. exists st'. split; [|done].
    apply elem_of_app. right. left.
Qed.

Lemma contains_insert_state_false visited st st' :
  contains (insert_state visited st') st = false → contains visited st = false.
Proof.
  intros Hc. apply not_true_iff_false. intros Ht.
  by rewrite (contains_insert_state _ _ st' Ht) in Hc.
Qed.

Lemma optimal_inv_visit pq history s curr_node next_nodes :
  inv pq history s → opt [] pq history s →
  pq_top pq = Some curr_node →
  contains (visited_states_ s) (state curr_node) = false →
  (∀ i mp, edg curr_node i mp →
     contains (visited_states_ (visit curr_node s)) (end_state_ mp) = false →
     next_node_of heuristic curr_node i mp ∈ next_nodes) →
  opt next_nodes (pq_pop pq) history (visit curr_node s).
Proof.
  intros Hinv Hopt Htop Hnew Hnodes.
  pose proof (top_cheapest pq history s curr_node Hinv Hopt Htop Hnew) as Hbest.
  destruct Hopt as [H1 H2 H3 H4]. split; cbn [expanded visited_states_ visit].
  - intros e m [He| ->%list_elem_of_singleton]%elem_of_app Hm Hq.
    + by eapply H1.
    + by apply Hbest.
  - intros e i mp [He| ->%list_elem_of_singleton]%elem_of_app Hedge.
    + destruct (H2 e i mp He Hedge)
        as [Hc|[(q & Hq_in & Hq_key & Hq_cost)|Hin]].
      * left. by apply contains_insert_state.
      * destruct (pq_elem_pop laws pq curr_node q Htop Hq_in) as [->|Hq_pop].
        -- left. by apply contains_insert_state_self.
        -- right; left. by exists q.
      * by apply elem_of_nil in Hin.
    + destruct (contains (insert_state (visited_states_ s) (state curr_node))
                  (end_state_ mp)) eqn:Hc; [by left|].
      right; right. by apply Hnodes.
  - intros st info c Hk Hbest' Hc.
    destruct (H3 st info c Hk Hbest' (contains_insert_state_false _ _ _ Hc))
      as (q & Hq_in & Hq_key & Hq_cost).
    destruct (pq_elem_pop laws pq curr_node q Htop Hq_in) as [->|Hq_pop].
    + by rewrite (contains_insert_state_self _ _ _ (eq_sym Hq_key)) in Hc.
    + by exists q.
  - intros Hc.
    destruct (pq_elem_pop laws pq curr_node _ Htop
                (H4 (contains_insert_state_false _ _ _ Hc))) as [Heq|Hpop];
      [|done].
    rewrite Heq in Hc. by rewrite contains_insert_state_self in Hc.
Qed.

Lemma optimal_inv_relax curr_node todo pq history s i mp :
  opt (next_node_of heuristic curr_node i mp :: todo) pq history s →
  contains (visited_states_ s) (end_state_ mp) = false →
  ∀ pq' history' s',
    relax Elapsed curr_node (pq, history, s) (next_node_of heuristic curr_node i mp)
    = (pq', history', s') →
    opt todo pq' history' s'.
Proof.
  intros [H1 H2 H3 H4] Hnew pq' history' s' Hrelax.
  set (n := next_node_of heuristic curr_node i mp) in *.
  destruct (relax_cases curr_node pq history s n)
    as [[Heq (info & c & Hk & Hbest & Hle)]|[Heq Hlt]];
    rewrite Heq in Hrelax; injection Hrelax as <- <- <-.
  - split; [done| |done|done].
    intros e i' mp' He Hedge.
    destruct (H2 e i' mp' He Hedge) as [Hc|[Hq|[Hn|Hin]%elem_of_cons]];
      [by left|by right; left| |by right; right].
    right; left.
    destruct (H3 (state n) info c Hk Hbest Hnew) as (q & Hq_in & Hq_key & Hq_cost).
    exists q. split_and!; [done| |].
    + rewrite Hq_key, <- Hn. done.
    + apply (f_equal motion_cost) in Hn. cbn in Hn. subst n. cbn in Hle. qc_lra.
  - split; cbn [expanded visited_states_ add_time]; [done| | |].
    + intros e i' mp' He Hedge.
      destruct (H2 e i' mp' He Hedge)
        as [Hc|[(q & Hq_in & Hq_key & Hq_cost)|[Hn|Hin]%elem_of_cons]];
        [by left| | |by right; right]; right; left.
      * exists q. split_and!; [|done|done]. apply (pq_push_elem laws). by right.
      * exists n. split_and!; [apply (pq_push_elem laws); by left| |].
        -- by rewrite <- Hn.
        -- rewrite <- Hn. cbn. qc_lra.
    + intros st info c. rewrite lookup_insert. case_decide as Hk.
      * intros [= <-] [= <-] _. exists n.
        split_and!; [apply (pq_push_elem laws); by left|done|done].
      * intros Hk' Hbest Hc.
        destruct (H3 st info c Hk' Hbest Hc) as (q & Hq_in & Hq_key & Hq_cost).
        exists q. split_and!; [|done|done]. apply (pq_push_elem laws). by right.
    + intros Hc. apply (pq_push_elem laws). right. by apply H4.
Qed.

Lemma optimal_inv_fold_relax curr_node todo : ∀ pq history s,
  opt todo pq history s →
  (∀ n, n ∈ todo →
     ∃ i mp, n = next_node_of heuristic curr_node i mp
             ∧ contains (visited_states_ s) (end_state_ mp) = false) →
  ∀ pq' history' s',
    fold_left (relax Elapsed curr_node) todo (pq, history, s)
    = (pq', history', s') →
    opt [] pq' history' s'.
Proof.
  induction todo as [|n todo IH];
    intros pq history s Hopt Htodo pq' history' s' Hfold.
  { by injection Hfold as <- <- <-. }
  cbn [fold_left] in Hfold.
  destruct (relax Elapsed curr_node (pq, history, s) n)
    as [[pq1 history1] s1] eqn:Hrelax.
  destruct (Htodo n) as (i & mp & -> & Hnew); [left|].
  pose proof (relax_fields curr_node pq history s
                (next_node_of heuristic curr_node i mp)) as [Hv _].
  rewrite Hrelax in Hv. cbn [snd] in Hv.
  eapply (IH pq1 history1 s1); [| |done].
  - by eapply optimal_inv_relax.
  - intros n Hn. rewrite Hv. apply Htodo. by right.
Qed.

Hypothesis nonneg : costs_nonneg graph_.

Lemma reachable_cost_nonneg n : reach n → 0 <= motion_cost n.
Proof.
  induction 1 as [|p i mp _ IH Hedge]; [cbn; qc_lra|].
  destruct Hedge as (_ & mp0 & Hget%get_mp_between_indices_elem & -> & _).
  specialize (nonneg mp0 Hget). cbn. qc_lra.
Qed.

Local Abbreviation least :=
  (least_cost graph_ heuristic is_mp_collision_free start_node end_state d ros_ok).

Lemma least_cost_nil_no_goal :
  (∀ m, reach m → goal m = false) → least [].
Proof.
  intros Hnone. split.
  - intros m Hm Hgoal. by rewrite Hnone in Hgoal.
  - intros _. by right.
Qed.

Lemma search_loop_least parallel rfuel fuel pq history s path s' :
  inv pq history s → opt [] pq history s →
  loop rfuel end_state d parallel fuel pq history s = (Returned path, s') →
  least path.
Proof.
  intros Hinv Hopt Hloop.
  cut (∀ path0, fst (loop rfuel end_state d parallel fuel pq history s)
                = Returned path0 → least path0).
  { intros Hcut. apply Hcut. by rewrite Hloop. }
  assert (Hboth : inv pq history s ∧ opt [] pq history s) by done.
  revert Hboth. clear Hloop Hinv Hopt.
  apply (search_loop_rule rfuel end_state d parallel
           (λ pq history s, inv pq history s ∧ opt [] pq history s)
           (λ out _, ∀ path0, out = Returned path0 → least path0)).
  - done.
  - intros pq0 history0 s0 [Hinv Hopt] Htop path0 [= <-].
    apply least_cost_nil_no_goal. intros m Hm. by eapply drained_no_goal.
  - intros _ _ s0 _ _ _ Hok path0 [= <-]. split.
    + intros m Hm _. cbn. by apply reachable_cost_nonneg.
    + intros Hall. by rewrite Hall in Hok.
  - intros pq0 history0 s0 curr_node [Hinv Hopt] Htop _ Hgoal path0 Hret.
    destruct (RecoverPath _ _ _ _ _ _) as [out s2] eqn:Hrec.
    cbn [fst] in Hret. subst out.
    assert (Hcurr : reach curr_node)
      by (eapply inv_pq_reachable; [done|by apply pq_top_elem]).
    destruct (recover_loop_chain pq0 history0 s0 rfuel Hinv curr_node []
                (tick s0) path0 s2)
      as (x & pre & -> & _ & Hx & Hstop & Hub & Hexact);
      [done|by eapply inv_pq_recorded, pq_top_elem|done|].
    rewrite app_nil_r.
    pose proof (reachable_cost_nonneg x Hx) as Hx0. split.
    + intros m Hm Hgm.
      pose proof (top_goal_least pq0 history0 s0 curr_node m Hinv Hopt Htop Hm Hgm).
      qc_lra.
    + intros Hall. left. exists curr_node. split_and!; [done|done|].
      destruct Hstop as [Hzero|[t Ht]]; [|by rewrite Hall in Ht].
      rewrite <- Hexact, Hzero; [ring| |].
      * eapply top_cheapest; [done|done|done|]. by eapply goal_not_closed.
      * intros e He m Hm Hq. by eapply opt_expanded.
  - intros pq0 history0 s0 curr_node [Hinv Hopt] Htop _ _ Hold. split.
    + apply (search_inv_fields _ _ s0); [done|done|]. by eapply search_inv_pop.
    + apply (optimal_inv_fields _ _ _ s0); [done|done|].
      by eapply optimal_inv_pop_stale.
  - done.
  - intros pq0 history0 s0 curr_node next_nodes [Hinv Hopt] Htop _ Hgoal Hnew
      s1 Hexp pq' history' s2 Hfold.
    assert (Hcurr : curr_node ∈ pq_elems pq0) by (by apply pq_top_elem).
    split.
    + eapply (search_inv_fold_relax curr_node next_nodes); [| | |exact Hfold].
      * apply (search_inv_fields _ _ s1); [done|done|].
        apply search_inv_visit;
          [|by eapply inv_pq_reachable|by eapply inv_pq_recorded|done|done].
        apply (search_inv_fields _ _ s0); [done|done|]. by eapply search_inv_pop.
      * cbn. apply elem_of_app. right. left.
      * intros n Hn.
        apply (elem_of_expander parallel s1 curr_node next_nodes n
                 schedules_valid Hexp) in Hn as (i & mp & Hedge & _ & ->). eauto.
    + eapply (optimal_inv_fold_relax curr_node next_nodes); [| |exact Hfold].
      * apply (optimal_inv_fields _ _ _ (visit curr_node s0)); [done|done|].
        apply optimal_inv_visit; [done|done|done|done|].
        intros i mp Hedge Hc.
        apply (elem_of_expander parallel s1 curr_node next_nodes _
                 schedules_valid Hexp). by exists i, mp.
      * intros n Hn.
        apply (elem_of_expander parallel s1 curr_node next_nodes n
                 schedules_valid Hexp) in Hn as (i & mp & Hedge & Hc & ->). eauto.
Qed.

Lemma Search_least parallel fuel s path s' :
  search fuel start_state end_state d parallel s = (Returned path, s') →
  least path.
Proof.
  unfold Search. cbn zeta. destruct (state_pos_within _ _ _ _) eqn:Hclose.
  - intros [= <- <-]. split.
    + intros m Hm _. cbn. by apply reachable_cost_nonneg.
    + intros _. left. exists start_node. split_and!; [constructor|done|done].
  - apply search_loop_least.
    + by apply search_inv_init.
    + by apply optimal_inv_init.
Qed.


Lemma Search_serial_parallel_cost fuel1 fuel2 s1 s2 path1 path2 s1' s2' :
  (∀ t, ros_ok t = true) →
  search fuel1 start_state end_state d false s1 = (Returned path1, s1') →
  search fuel2 start_state end_state d true s2 = (Returned path2, s2') →
  path_cost path1 = path_cost path2.
Proof.
  intros Hok [Hmin1 Hatt1]%Search_least [Hmin2 Hatt2]%Search_least.
  destruct (Hatt1 Hok) as [(u1 & Hu1 & Hg1 & Hc1)|[-> Hnone1]];
    destruct (Hatt2 Hok) as [(u2 & Hu2 & Hg2 & Hc2)|[-> Hnone2]].
  - specialize (Hmin1 u2 Hu2 Hg2). specialize (Hmin2 u1 Hu1 Hg1). qc_lra.
  - by rewrite (Hnone2 u1 Hu1) in Hg1.
  - by rewrite (Hnone1 u2 Hu2) in Hg2.
  - done.
Qed.

End Optimality.

End Recovery.

End Correctness.

End SearchFacts.


(** ** Checking the hypotheses on a finite set of nodes *)

Section CheckFacts.

Variable graph_ : MotionPrimitiveGraph.
Variable heuristic : State → Qc.
Variable is_mp_collision_free : MotionPrimitive → bool.

Local Abbreviation reach := (reachable graph_ heuristic is_mp_collision_free).
Local Abbreviation edg := (edge graph_ is_mp_collision_free).

Lemma edge_in_Expand p i mp ns :
  Expand graph_ heuristic is_mp_collision_free [] p = Some ns →
  edg p i mp → next_node_of heuristic p i mp ∈ ns.
Proof.
  intros Hexp Hedge. apply (elem_of_Expand _ _ _ _ _ _ _ Hexp). by exists i, mp.
Qed.

Lemma closed_under_expand_reachable L start_node :
  closed_under_expand graph_ heuristic is_mp_collision_free L = true →
  start_node ∈ L →
  ∀ n, reach start_node n → n ∈ L.
Proof.
  intros Hclosed Hstart n Hn. induction Hn as [|p i mp _ IH Hedge]; [done|].
  unfold closed_under_expand in Hclosed. rewrite forallb_forall in Hclosed.
  specialize (Hclosed p (proj1 (list_elem_of_In _ _) IH)).
  destruct (Expand _ _ _ _ p) as [ns|] eqn:Hexp; [|done].
  rewrite forallb_forall in Hclosed.
  pose proof (edge_in_Expand p i mp ns Hexp Hedge) as Hin.
  apply list_elem_of_In, Hclosed in Hin. by apply bool_decide_eq_true in Hin.
Qed.

Lemma separated_quantize_separates L start_node :
  (∀ n, reach start_node n → n ∈ L) →
  separated L = true →
  quantize_separates graph_ heuristic is_mp_collision_free start_node.
Proof.
  intros Hreach Hsep n m Hn%Hreach Hm%Hreach Hq.
  unfold separated in Hsep. rewrite forallb_forall in Hsep.
  specialize (Hsep n (proj1 (list_elem_of_In _ _) Hn)).
  rewrite forallb_forall in Hsep.
  specialize (Hsep m (proj1 (list_elem_of_In _ _) Hm)).
  rewrite bool_decide_eq_true_2 in Hsep by done. cbn in Hsep.
  apply andb_true_iff in Hsep as [Hi%bool_decide_eq_true Hs%bool_decide_eq_true].
  by split.
Qed.

Lemma consistent_on_consistent L start_node :
  (∀ n, reach start_node n → n ∈ L) →
  consistent_on graph_ heuristic is_mp_collision_free L = true →
  consistent graph_ heuristic is_mp_collision_free start_node.
Proof.
  intros Hreach Hcons p i mp Hp%Hreach Hedge.
  unfold consistent_on in Hcons. rewrite forallb_forall in Hcons.
  specialize (Hcons p (proj1 (list_elem_of_In _ _) Hp)).
  destruct (Expand _ _ _ _ p) as [ns|] eqn:Hexp; [|done].
  rewrite forallb_forall in Hcons.
  pose proof (edge_in_Expand p i mp ns Hexp Hedge) as Hin.
  apply list_elem_of_In, Hcons, bool_decide_eq_true in Hin. cbn in Hin. qc_lra.
Qed.

Lemma zero_at_goal_admissible L start_node end_state d :
  (∀ n, reach start_node n → n ∈ L) →
  (∀ st, 0 <= heuristic st) →
  zero_at_goal graph_ heuristic end_state d L = true →
  admissible_at_goal graph_ heuristic is_mp_collision_free start_node
    end_state d.
Proof.
  intros Hreach Hnonneg Hzero. split; [done|]. intros n Hn%Hreach Hgoal.
  unfold zero_at_goal in Hzero. rewrite forallb_forall in Hzero.
  specialize (Hzero n (proj1 (list_elem_of_In _ _) Hn)).
  rewrite Hgoal in Hzero. by apply bool_decide_eq_true in Hzero.
Qed.

Lemma uniform_derivatives_lattice v start_state :
  uniform_derivatives graph_ v = true →
  drop (graph_spatial_dim_ graph_) start_state = v →
  lattice_ok graph_ ∧ start_on_lattice graph_ start_state.
Proof.
  intros Hu Hstart. unfold uniform_derivatives in Hu.
  rewrite forallb_forall in Hu.
  assert (Hmp : ∀ i j mp, get_mp_between_indices graph_ i j = Some mp →
            drop (graph_spatial_dim_ graph_) (start_state_ mp) = v
            ∧ drop (graph_spatial_dim_ graph_) (end_state_ mp) = v).
  { intros i j mp Hget%get_mp_between_indices_elem%list_elem_of_In%Hu.
    by apply andb_true_iff in Hget
      as [H1%bool_decide_eq_true H2%bool_decide_eq_true]. }
  split.
  - intros i j k mp1 mp2 H1%Hmp H2%Hmp. destruct H1, H2. congruence.
  - intros k mp H%Hmp. destruct H. congruence.
Qed.

Lemma reachable_cost_mono n m :
  costs_nonneg graph_ → reach n m → motion_cost n <= motion_cost m.
Proof.
  intros Hnonneg. induction 1 as [|p i mp _ IH Hedge]; [qc_lra|].
  destruct Hedge as (_ & mp0 & Hget%get_mp_between_indices_elem & -> & _).
  specialize (Hnonneg mp0 Hget). cbn. qc_lra.
Qed.

Lemma admissible_at_goal_of_admissible start_node end_state d :
  admissible graph_ heuristic is_mp_collision_free start_node end_state d →
  admissible_at_goal graph_ heuristic is_mp_collision_free start_node
    end_state d.
Proof.
  intros [Hnonneg Hbound]. split; [done|]. intros n Hn Hgoal.
  specialize (Hbound n n Hn ltac:(constructor) Hgoal).
  specialize (Hnonneg (state n)). qc_lra.
Qed.

End CheckFacts.

(** * The scenarios *)

Import Scenarios.

(** Closed decidable goals, by evaluation. *)
Ltac decide_true :=
  match goal with
  | |- ?P => apply (bool_decide_eq_true_1 P); vm_compute; reflexivity
  end.

(** One goal for each element of a list given in full. *)
Ltac each_elem H :=
  repeat (apply elem_of_cons in H as [->|H]); [..|by apply elem_of_nil in H].

Lemma costs_positive_nonneg g : costs_positive g → costs_nonneg g.
Proof. intros Hpos mp Hmp. specialize (Hpos mp Hmp). qc_lra. Qed.

Lemma one_worker_valid n t : valid_schedule n (one_worker n t).
Proof.
  unfold valid_schedule, schedule_indices, one_worker. cbn.
  by rewrite Nat.sub_0_r, !app_nil_r.
Qed.

Lemma upper_first_valid n t : valid_schedule n (upper_first n t).
Proof.
  unfold valid_schedule, schedule_indices, upper_first.
  assert (Hle : (n / 2 <= n)%nat) by (apply Nat.Div0.div_le_upper_bound; lia).
  revert Hle. generalize (n / 2)%nat. intros k Hk. cbn.
  rewrite Nat.sub_0_r, !app_nil_r, Permutation_app_comm.
  transitivity (seq 0 (k + (n - k))); [by rewrite seq_app|].
  by replace (k + (n - k))%nat with n by lia.
Qed.

(** ** Two routes (S4) *)

Lemma two_routes_reachable n :
  reachable TwoRoutes.graph TwoRoutes.h TwoRoutes.free TwoRoutes.start n →
  n ∈ TwoRoutes.nodes.
Proof. apply closed_under_expand_reachable; [by vm_compute|left]. Qed.

Lemma two_routes_separates :
  quantize_separates TwoRoutes.graph TwoRoutes.h TwoRoutes.free TwoRoutes.start.
Proof.
  eapply separated_quantize_separates; [apply two_routes_reachable|by vm_compute].
Qed.

Lemma two_routes_consistent :
  consistent TwoRoutes.graph TwoRoutes.h TwoRoutes.free TwoRoutes.start.
Proof.
  eapply consistent_on_consistent; [apply two_routes_reachable|by vm_compute].
Qed.

Lemma two_routes_h_nonneg st : 0 <= TwoRoutes.h st.
Proof.
  destruct st as [|x st]; cbn; [done|]. unfold zq, qc.
  case_bool_decide as Hx; [qc_lra|done].
Qed.

Lemma two_routes_admissible :
  admissible_at_goal TwoRoutes.graph TwoRoutes.h TwoRoutes.free TwoRoutes.start
    TwoRoutes.target TwoRoutes.threshold.
Proof.
  eapply zero_at_goal_admissible;
    [apply two_routes_reachable|apply two_routes_h_nonneg|by vm_compute].
Qed.

Lemma two_routes_costs_positive : costs_positive TwoRoutes.graph.
Proof. intros mp Hmp. cbn in Hmp. each_elem Hmp; by vm_compute. Qed.

Lemma two_routes_dims : dims_ok TwoRoutes.graph.
Proof.
  split; [cbn; lia|]. intros mp Hmp. cbn in Hmp. each_elem Hmp; by cbn.
Qed.

Lemma two_routes_lattice :
  lattice_ok TwoRoutes.graph ∧ start_on_lattice TwoRoutes.graph TwoRoutes.origin.
Proof. apply (uniform_derivatives_lattice _ [0; 0]); by vm_compute. Qed.

Lemma detour_reachable n :
  reachable TwoRoutes.graph TwoRoutes.h TwoRoutes.free_but_A TwoRoutes.start n →
  n ∈ TwoRoutes.nodes_but_A.
Proof. apply closed_under_expand_reachable; [by vm_compute|left]. Qed.

Lemma detour_separates :
  quantize_separates TwoRoutes.graph TwoRoutes.h TwoRoutes.free_but_A
    TwoRoutes.start.
Proof.
  eapply separated_quantize_separates; [apply detour_reachable|by vm_compute].
Qed.


Lemma two_routes_indexed : bank_indexed TwoRoutes.graph.
Proof. unfold bank_indexed. cbn. repeat (constructor; try done). Qed.








(** ** The early exit (S1) and the single edge (S2, S3) *)


(** When the only edge is blocked the search runs and returns no path; it
    never pushes, and there is no entry for ["astar_push"]. *)
Example blocked_search_never_pushes :
  fst (run OneStep.graph OneStep.h OneStep.blocked always_ok (one_worker 2) 20
         OneStep.origin OneStep.target (qc 1 100) false) = Returned []
  ∧ timings (snd (run OneStep.graph OneStep.h OneStep.blocked always_ok
                    (one_worker 2) 20 OneStep.origin OneStep.target (qc 1 100)
                    false)) !! "astar_push" = None.
Proof. by vm_compute. Qed.


(** A shutdown request during path recovery (here at the second poll of
    the recovery loop) makes [Search] return the part of the path recovered so
    far: its last primitive only, which does not start at the start state. *)
Example cancelled_recovery_returns_suffix :
  ∃ mp s',
    @Search ListPQ.pq TwoRoutes.graph TwoRoutes.h TwoRoutes.free
      (λ t, bool_decide (t ≠ 11%nat)) one_ms (one_worker 4) 20 TwoRoutes.origin
      TwoRoutes.target TwoRoutes.threshold false fresh
    = (Returned [mp], s')
    ∧ quantize (start_state_ mp) = [100; 100; 0; 0]%Z
    ∧ quantize TwoRoutes.origin = [0; 0; 0; 0]%Z.
Proof. do 2 eexists. split; [vm_compute; reflexivity|]. by vm_compute. Qed.

(** ** An admissible heuristic that is not consistent *)

Lemma inconsistent_reachable n :
  reachable Inconsistent.graph Inconsistent.h Inconsistent.free
    Inconsistent.start n →
  n ∈ Inconsistent.nodes.
Proof. apply closed_under_expand_reachable; [by vm_compute|left]. Qed.

Lemma inconsistent_reachable_from_B m :
  reachable Inconsistent.graph Inconsistent.h Inconsistent.free
    Inconsistent.nodeB m →
  m ∈ Inconsistent.nodes_from_B.
Proof. apply closed_under_expand_reachable; [by vm_compute|left]. Qed.

Lemma inconsistent_costs_nonneg : costs_nonneg Inconsistent.graph.
Proof. intros mp Hmp. cbn in Hmp. each_elem Hmp; by vm_compute. Qed.

Lemma inconsistent_admissible :
  admissible Inconsistent.graph Inconsistent.h Inconsistent.free
    Inconsistent.start Inconsistent.target Inconsistent.threshold.
Proof.
  split.
  { intros st. unfold Inconsistent.h. case_bool_decide; by vm_compute. }
  intros n m Hn Hm Hgoal.
  pose proof (reachable_cost_mono _ _ _ _ _ inconsistent_costs_nonneg Hm) as Hmono.
  apply inconsistent_reachable in Hn. unfold Inconsistent.nodes in Hn.
  each_elem Hn;
    try (match goal with
         | |- Inconsistent.h (state ?n) <= _ =>
             replace (Inconsistent.h (state n)) with (0 : Qc)
               by (symmetry; decide_true)
         end; qc_lra).
  apply inconsistent_reachable_from_B in Hm. unfold Inconsistent.nodes_from_B in Hm.
  each_elem Hm; try (vm_compute in Hgoal; discriminate Hgoal).
  decide_true.
Qed.


(** The heuristic of that scenario is indeed not consistent. *)
Example inconsistent_not_consistent :
  ¬ consistent Inconsistent.graph Inconsistent.h Inconsistent.free
      Inconsistent.start.
Proof.
  intros Hcons.
  specialize (Hcons Inconsistent.nodeB 2%nat
                (translate (line (zq 2) 1 1 (zq 2) 0) (state Inconsistent.nodeB))).
  assert (Hbad : ¬ (Inconsistent.h (state Inconsistent.nodeB)
                    <= cost_ (translate (line (zq 2) 1 1 (zq 2) 0)
                                (state Inconsistent.nodeB))
                       + Inconsistent.h
                           (end_state_ (translate (line (zq 2) 1 1 (zq 2) 0)
                                          (state Inconsistent.nodeB))))).
  { apply (bool_decide_eq_false_1 _). vm_compute. reflexivity. }
  apply Hbad, Hcons.
  - eapply (reachable_step _ _ _ _ Inconsistent.start 1); [constructor|].
    split; [cbn; lia|]. eexists. split_and!; [reflexivity|reflexivity|done].
  - split; [cbn; lia|]. eexists. split_and!; [reflexivity|reflexivity|done].
Qed.

(** ** Two successors of equal total cost *)


(** ** Two states that the quantisation merges *)

